(** * The gateway's RPC-over-broker layer, its router and its broker client

    A shallow embedding of [App/packages/api/index.js]: the two pending
    maps, [generateUuid], [sendRpc], the two reply consumers installed by
    [setupRabbitMQ], the retry loop of [setupRabbitMQ], and the HTTP
    handlers that sit on top of [sendRpc].

    The gateway is a single-threaded event loop.  Its state is threaded
    explicitly, and every callback the runtime may invoke (an HTTP handler
    calling [sendRpc], a reply delivered to a consumer, the timers phase) is
    an event of a step function. *)

From stdpp Require Import base list strings numbers pretty.
From Equations Require Import Equations.

(** ** ECMAScript [Map] with string keys

    ECMA-262 specifies a [Map] as a list of entries ([[MapData]]) that
    [set], [get], [has] and [delete] walk from the front, comparing keys.
    The pending maps are modelled that way, so that "one entry per key" is
    something to prove about the operations and not a property of the
    representation. *)

Section JSMap.
Context {V : Type}.

(** [Map.prototype.get]: the value of the first entry whose key matches,
    [None] standing for [undefined]. *)
Fixpoint Map_get (m : list (string * V)) (k : string) : option V :=
  match m with
  | [] => None
  | (k', v) :: m' => if decide (k' = k) then Some v else Map_get m' k
  end.

(** [Map.prototype.has]. *)
Fixpoint Map_has (m : list (string * V)) (k : string) : bool :=
  match m with
  | [] => false
  | (k', _) :: m' => if decide (k' = k) then true else Map_has m' k
  end.

(** [Map.prototype.set]: overwrite the value of the entry with that key
    if there is one, append a new entry otherwise. *)
Fixpoint Map_set (m : list (string * V)) (k : string) (v : V)
  : list (string * V) :=
  match m with
  | [] => [(k, v)]
  | (k', v') :: m' =>
      if decide (k' = k) then (k', v) :: m' else (k', v') :: Map_set m' k v
  end.

(** [Map.prototype.delete]: drop the first entry with that key. *)
Fixpoint Map_delete (m : list (string * V)) (k : string)
  : list (string * V) :=
  match m with
  | [] => []
  | (k', v') :: m' =>
      if decide (k' = k) then m' else (k', v') :: Map_delete m' k
  end.
End JSMap.

(** ** Data on the wire and in the event loop *)

(** The two logical backends.  Each has its own pending map
    ([pendingItemRequests], [pendingUserRequests]) and its own exclusive
    reply queue ([itemReplyQueue], [userReplyQueue]). *)
Inductive Backend := ItemBackend | UserBackend.

#[global] Instance Backend_eq_dec : EqDecision Backend.
Proof. solve_decision. Defined.

(** A delivered message: [msg.properties.correlationId] (which a sender may
    leave out) and [msg.content.toString()]. *)
Record Message := {
  correlationId : option string;
  content : string
}.

(** [new Promise((resolve, reject) => ...)] hands the executor the two
    settling functions of the new promise.  Promises are numbered in the
    order [sendRpc] creates them. *)
Inductive Callback := ResolveOf (p : nat) | RejectOf (p : nat).

(** The closure [sendRpc] passes to [setTimeout]: it captures the pending
    map, the correlation id and the [reject] of its promise. *)
Record Timer := {
  deadline : N;
  tmap : Backend;
  tcid : string;
  tpromise : nat
}.

(** What a timer's callback will look up: which map, under which id. *)
Definition timer_key (t : Timer) : Backend * string := (tmap t, tcid t).

(** How a callback ends: it returns, or an exception leaves it. *)
Inductive Completion := Normal | Throw (error : string).

Section Gateway.
(** Request payloads and reply data are opaque structured data for the
    gateway: it forwards them and never looks inside. *)
Context {Value : Type}.

(** The Reply Envelope a worker sends: [{ status, data }] on success,
    [{ status, message }] on error.  A field that is absent reads as
    [undefined], here [None]. *)
Record Envelope := {
  status : string;
  data : option Value;
  message : option string
}.

(** [JSON.parse] on the text of a reply; [None] stands for the
    [SyntaxError] it throws on text that is not JSON. *)
Context (JSON_parse : string → option Envelope).

(** What a settling function is called with: a parsed Reply Envelope,
    [new Error(msg)], or the exception that left [sendToQueue], of which
    the model keeps the message. *)
Inductive JSArg :=
| AEnvelope (v : Envelope)
| AError (msg : string)
| AThrown (error : string).

(** One call of a settling function, as the event loop observes it. *)
Inductive Settle :=
| Resolve (p : nat) (v : JSArg)
| Reject (p : nat) (v : JSArg).

Definition settle_promise (s : Settle) : nat :=
  match s with Resolve p _ | Reject p _ => p end.

Definition invoke (f : Callback) (v : JSArg) : Settle :=
  match f with
  | ResolveOf p => Resolve p v
  | RejectOf p => Reject p v
  end.

(** A message handed to [amqpChannel.sendToQueue]: the queue, the body
    [{ command, payload }], and the properties [correlationId] and
    [replyTo]. *)
Record Sent := {
  squeue : string;
  scommand : string;
  spayload : Value;
  scorrelationId : string;
  sreplyTo : Backend
}.

Record State := {
  now : N;
  nextPromise : nat;
  pendingItemRequests : list (string * Callback);
  pendingUserRequests : list (string * Callback);
  timers : list Timer;
  settlements : list Settle;
  outbox : list Sent
}.

Definition init : State := {|
  now := 0;
  nextPromise := 0;
  pendingItemRequests := [];
  pendingUserRequests := [];
  timers := [];
  settlements := [];
  outbox := []
|}.

Definition pending (b : Backend) (st : State) : list (string * Callback) :=
  match b with
  | ItemBackend => pendingItemRequests st
  | UserBackend => pendingUserRequests st
  end.

Definition with_pending (b : Backend) (m : list (string * Callback))
    (st : State) : State :=
  match b with
  | ItemBackend =>
      {| now := now st; nextPromise := nextPromise st;
         pendingItemRequests := m;
         pendingUserRequests := pendingUserRequests st;
         timers := timers st; settlements := settlements st;
         outbox := outbox st |}
  | UserBackend =>
      {| now := now st; nextPromise := nextPromise st;
         pendingItemRequests := pendingItemRequests st;
         pendingUserRequests := m;
         timers := timers st; settlements := settlements st;
         outbox := outbox st |}
  end.

Definition with_timers (ts : list Timer) (st : State) : State :=
  {| now := now st; nextPromise := nextPromise st;
     pendingItemRequests := pendingItemRequests st;
     pendingUserRequests := pendingUserRequests st;
     timers := ts; settlements := settlements st; outbox := outbox st |}.

Definition with_settle (s : Settle) (st : State) : State :=
  {| now := now st; nextPromise := nextPromise st;
     pendingItemRequests := pendingItemRequests st;
     pendingUserRequests := pendingUserRequests st;
     timers := timers st; settlements := settlements st ++ [s];
     outbox := outbox st |}.

Definition with_sent (m : Sent) (st : State) : State :=
  {| now := now st; nextPromise := nextPromise st;
     pendingItemRequests := pendingItemRequests st;
     pendingUserRequests := pendingUserRequests st;
     timers := timers st; settlements := settlements st;
     outbox := outbox st ++ [m] |}.

(** [new Promise(...)]: the next promise number is taken. *)
Definition new_promise (st : State) : State :=
  {| now := now st; nextPromise := S (nextPromise st);
     pendingItemRequests := pendingItemRequests st;
     pendingUserRequests := pendingUserRequests st;
     timers := timers st; settlements := settlements st;
     outbox := outbox st |}.

(** ** [generateUuid] and [sendRpc] *)

(** [Math.random().toString(16).slice(2) + Date.now()].  The two reads of
    the environment are arguments: [rnd] is the hexadecimal fraction that
    [Math.random] produced, [t] the clock in milliseconds. *)
Definition generateUuid (rnd : string) (t : N) : string := rnd +:+ pretty t.

(** The delay given to [setTimeout] in [sendRpc]. *)
Definition timeoutMs : N := 5000.

(** [sendRpc(queue, replyQueue, pendingMap, command, payload)].  It returns
    the new promise.  The executor runs synchronously: it registers
    [resolve] under the correlation id, hands the request to
    [amqpChannel.sendToQueue], and arms the timer.  [sendToQueue] tells how
    that call ends.  When it throws, the exception leaves the executor
    before [setTimeout] is reached: no timer is armed, the entry stays in
    the map, and the [Promise] constructor calls [reject] with the
    exception. *)
Definition sendRpc (queue : string) (replyQueue pendingMap : Backend)
    (command : string) (payload : Value) (rnd : string)
    (sendToQueue : Completion) (st : State) : State * nat :=
  let correlationId := generateUuid rnd (now st) in
  let p := nextPromise st in
  let st1 := new_promise st in
  let st2 :=
    with_pending pendingMap
      (Map_set (pending pendingMap st1) correlationId (ResolveOf p)) st1 in
  let st3 :=
    with_sent {| squeue := queue; scommand := command; spayload := payload;
                 scorrelationId := correlationId; sreplyTo := replyQueue |}
      st2 in
  match sendToQueue with
  | Normal =>
      (with_timers
         (timers st3 ++
            [{| deadline := now st3 + timeoutMs; tmap := pendingMap;
                tcid := correlationId; tpromise := p |}]) st3, p)
  | Throw error => (with_settle (Reject p (AThrown error)) st3, p)
  end.

Definition sendUserRpcMessage (command : string) (payload : Value) :=
  sendRpc "user_requests" UserBackend UserBackend command payload.

Definition sendItemRpcMessage (command : string) (payload : Value) :=
  sendRpc "item_requests" ItemBackend ItemBackend command payload.

(** The timer callback of [sendRpc]:
    [if (pendingMap.has(id)) { pendingMap.delete(id); reject(...) }]. *)
Definition timeout (t : Timer) (st : State) : State :=
  if Map_has (pending (tmap t) st) (tcid t) then
    with_settle (Reject (tpromise t) (AError "RPC timeout"))
      (with_pending (tmap t) (Map_delete (pending (tmap t) st) (tcid t)) st)
  else st.

(** ** The reply consumers of [setupRabbitMQ] *)

(** The callback given to [amqpChannel.consume] for a reply queue; the two
    consumers differ only in the pending map they close over.  A
    correlation id that is [undefined] finds nothing, the keys being
    strings.  The argument of [resolver(...)] is evaluated before the call,
    so a [SyntaxError] of [JSON.parse] leaves the callback with the map
    untouched. *)
Definition consume (pendingMap : Backend) (msg : Message) (st : State)
  : State * Completion :=
  match correlationId msg with
  | None => (st, Normal)
  | Some c =>
      match Map_get (pending pendingMap st) c with
      | None => (st, Normal)
      | Some resolver =>
          match JSON_parse (content msg) with
          | None => (st, Throw "SyntaxError")
          | Some v =>
              let st1 := with_settle (invoke resolver (AEnvelope v)) st in
              (with_pending pendingMap
                 (Map_delete (pending pendingMap st1) c) st1, Normal)
          end
      end
  end.

(** ** The event loop *)

(** What the runtime can do to the gateway: a handler calls
    [sendItemRpcMessage] or [sendUserRpcMessage] ([rnd] is what
    [Math.random] gives that call) and [sendToQueue] returns, which is
    [Call], or throws [error], which is [CallThrows]; a reply reaches a
    consumer; the clock moves; the timers phase runs.  Nothing is assumed
    of the channel: a call may throw at any time, and calls and deliveries
    may follow one that threw. *)
Inductive Event :=
| Call (b : Backend) (command : string) (payload : Value) (rnd : string)
| CallThrows (b : Backend) (command : string) (payload : Value)
    (rnd : string) (error : string)
| Deliver (b : Backend) (msg : Message)
| Tick (dt : N)
| Timers.

Definition advance (dt : N) (st : State) : State :=
  {| now := now st + dt; nextPromise := nextPromise st;
     pendingItemRequests := pendingItemRequests st;
     pendingUserRequests := pendingUserRequests st;
     timers := timers st; settlements := settlements st;
     outbox := outbox st |}.

(** The timers phase runs, in the order they were armed, the callbacks of
    all timers whose deadline has passed; the others stay armed. *)
Definition run_timers (st : State) : State :=
  foldl (λ s t, timeout t s)
    (with_timers (filter (λ t, ¬ (deadline t ≤ now st)%N) (timers st)) st)
    (filter (λ t, (deadline t ≤ now st)%N) (timers st)).

Definition step (st : State) (e : Event) : State * Completion :=
  match e with
  | Call ItemBackend command payload rnd =>
      ((sendItemRpcMessage command payload rnd Normal st).1, Normal)
  | Call UserBackend command payload rnd =>
      ((sendUserRpcMessage command payload rnd Normal st).1, Normal)
  | CallThrows ItemBackend command payload rnd error =>
      ((sendItemRpcMessage command payload rnd (Throw error) st).1, Normal)
  | CallThrows UserBackend command payload rnd error =>
      ((sendUserRpcMessage command payload rnd (Throw error) st).1, Normal)
  | Deliver b msg => consume b msg st
  | Tick dt => (advance dt st, Normal)
  | Timers => (run_timers st, Normal)
  end.

(** A run of the event loop: the events, in order.  What the runtime does
    with an exception that leaves a callback is not the gateway's code; the
    run is taken to go on from the state the callback left.  A runtime that
    stops at the exception performs a prefix of such a run. *)
Fixpoint run (st : State) (evs : list Event) : State :=
  match evs with
  | [] => st
  | e :: evs' => run (step st e).1 evs'
  end.

(** A correlation id is free for a backend when no entry of its pending
    map and no armed timer carries it.  [sendRpc] never cancels a timer, so
    the id of a call stays in use until the call's timer has fired. *)
Definition token_free (b : Backend) (c : string) (st : State) : bool :=
  negb (Map_has (pending b st) c)
  && forallb (λ t, negb (bool_decide (tmap t = b ∧ tcid t = c))) (timers st).

(** [generateUuid] is taken to do its job along a run: every id it returns
    is free at that moment. *)
Fixpoint fresh (st : State) (evs : list Event) : bool :=
  match evs with
  | [] => true
  | e :: evs' =>
      match e with
      | Call b _ _ rnd | CallThrows b _ _ rnd _ =>
          token_free b (generateUuid rnd (now st)) st
      | _ => true
      end
      && fresh (step st e).1 evs'
  end.

(** The calls of a promise's settling functions, oldest first. *)
Definition outcomes (p : nat) (st : State) : list Settle :=
  filter (λ s, settle_promise s = p) (settlements st).

(** The promise was rejected by its own executor: [sendToQueue] threw in
    the call that created it. *)
Definition failed (p : nat) (st : State) : Prop :=
  ∃ error, Reject p (AThrown error) ∈ settlements st.

(** ** Invariants of the event loop *)

(** Every value stored in a pending map is the [resolve] of a promise. *)
Definition resolvers_only (st : State) : Prop :=
  ∀ b c f, Map_get (pending b st) c = Some f → ∃ p, f = ResolveOf p.

(** What holds of every state of every run, whatever [generateUuid]
    returns. *)
Definition Basic (st : State) : Prop :=
  (∀ b, NoDup (pending b st).*1)
  ∧ resolvers_only st
  ∧ ∀ s, s ∈ settlements st →
         (∃ p v, s = Resolve p v)
         ∨ (∃ p, s = Reject p (AError "RPC timeout"))
         ∨ (∃ p error, s = Reject p (AThrown error)).

(** The invariant that ties the pending maps, the armed timers and the
    settled promises together.  It is stated over a list [ts] of timers so
    that it can follow the timers phase, which takes the due timers off
    the list one by one; for a state between two events [ts] is
    [timers st].  An entry of a pending map is that of a call whose timer
    is armed and whose promise is not settled, or that of a call whose
    [sendToQueue] threw, which no timer will look up. *)
Record Inv (ts : list Timer) (st : State) : Prop := {
  inv_keys : ∀ b, NoDup (pending b st).*1;
  inv_pending : ∀ b c f,
    Map_get (pending b st) c = Some f →
    (∃ t, t ∈ ts ∧ tmap t = b ∧ tcid t = c ∧ f = ResolveOf (tpromise t)
          ∧ outcomes (tpromise t) st = [])
    ∨ (∃ p, f = ResolveOf p ∧ failed p st
            ∧ ∀ t, t ∈ ts → timer_key t ≠ (b, c));
  inv_entries : ∀ b c b' c' p,
    Map_get (pending b st) c = Some (ResolveOf p) →
    Map_get (pending b' st) c' = Some (ResolveOf p) →
    b = b' ∧ c = c';
  inv_timer_keys : NoDup (timer_key <$> ts);
  inv_timer_promises : NoDup (tpromise <$> ts);
  inv_timer_bound : ∀ t, t ∈ ts → tpromise t < nextPromise st;
  inv_timer_sent : ∀ t, t ∈ ts → ¬ failed (tpromise t) st;
  inv_settle_bound : ∀ s,
    s ∈ settlements st → settle_promise s < nextPromise st;
  inv_unsettled : ∀ p,
    p < nextPromise st → outcomes p st = [] →
    ∃ b c, Map_get (pending b st) c = Some (ResolveOf p);
  inv_once : ∀ p, ¬ failed p st → length (outcomes p st) ≤ 1;
  inv_shape : ∀ s,
    s ∈ settlements st →
    (∃ p env, s = Resolve p (AEnvelope env))
    ∨ (∃ p, s = Reject p (AError "RPC timeout"))
    ∨ (∃ p error, s = Reject p (AThrown error))
}.

(** The call that armed timer [t] has been made, its [sendToQueue]
    returned, and no other armed timer is for its promise. *)
Definition issued (t : Timer) (st : State) : Prop :=
  tpromise t < nextPromise st
  ∧ ¬ failed (tpromise t) st
  ∧ ∀ t', t' ∈ timers st → tpromise t' = tpromise t → t' = t.

(** The timer that a call made in state [st] arms. *)
Definition timer_of_call (b : Backend) (rnd : string) (st : State) : Timer :=
  {| deadline := now st + timeoutMs; tmap := b;
     tcid := generateUuid rnd (now st); tpromise := nextPromise st |}.

(** A reply for the call with correlation id [c] on backend [b]. *)
Definition reply_for (b : Backend) (c : string) (e : Event) : Prop :=
  match e with
  | Deliver b' msg => b' = b ∧ correlationId msg = Some c
  | _ => False
  end.

(** ** The router *)

(** What [await sendItemRpcMessage(...)] gives a handler: the envelope the
    promise was resolved with, or the error it was rejected with, thrown. *)
Inductive Awaited :=
| Returned (response : Envelope)
| Thrown (error : string).

(** A Fan-out Event: [{ type, item }] or [{ type, id }]; [id] is
    [parseInt(req.params.id)], [None] when that is [NaN]. *)
Inductive FanoutEvent :=
| ItemEvent (type : string) (item : option Value)
| IdEvent (type : string) (id : option Z).

Inductive Body :=
| Json (v : option Value)
| Text (s : option string)
| StatusText.

Record Response := { code : nat; body : Body }.

(** What a handler does once its RPC call is settled, in order. *)
Inductive Effect :=
| Publish (channel : string) (ev : FanoutEvent)
| Respond (r : Response)
| Next (user : Value).

Definition item_service_timeout : list Effect :=
  [Respond {| code := 504; body := Text (Some "Item service timeout") |}].

(** [await broadcast(data)]: [published] tells whether the publish on
    [item_updates] goes through.  When it does the handler goes on, when it
    does not the rejection is thrown into the handler's [catch]. *)
Definition broadcast (data : FanoutEvent) (published : bool)
    (then_ : list Effect) (catch : list Effect) : list Effect :=
  if published then Publish "item_updates" data :: then_ else catch.

(** [authenticateToken]; [token] is [authHeader?.split(' ')[1]], [None]
    when it is missing or empty.  [next()] runs with [req.user] taken from
    the data of the reply; reading it throws when there is no data. *)
Definition authenticateToken (token : option string) (r : Awaited)
  : list Effect :=
  match token with
  | None => [Respond {| code := 401; body := StatusText |}]
  | Some _ =>
      match r with
      | Returned response =>
          if decide (status response = "success") then
            match data response with
            | Some d => [Next d]
            | None => [Respond {| code := 503; body := StatusText |}]
            end
          else [Respond {| code := 403; body := StatusText |}]
      | Thrown _ => [Respond {| code := 503; body := StatusText |}]
      end
  end.

(** [app.post('/signup', ...)]. *)
Definition post_signup (r : Awaited) : list Effect :=
  match r with
  | Returned response =>
      [Respond {| code := 201; body := Json (data response) |}]
  | Thrown err => [Respond {| code := 504; body := Text (Some err) |}]
  end.

(** [app.post('/login', ...)]. *)
Definition post_login (r : Awaited) : list Effect :=
  match r with
  | Returned response =>
      if decide (status response = "success") then
        [Respond {| code := 200; body := Json (data response) |}]
      else [Respond {| code := 401; body := Text (message response) |}]
  | Thrown err => [Respond {| code := 504; body := Text (Some err) |}]
  end.

(** [app.get('/items', ...)]. *)
Definition get_items (r : Awaited) : list Effect :=
  match r with
  | Returned response =>
      [Respond {| code := 200; body := Json (data response) |}]
  | Thrown _ => item_service_timeout
  end.

(** [app.post('/items', ...)]. *)
Definition post_items (r : Awaited) (published : bool) : list Effect :=
  match r with
  | Returned response =>
      broadcast (ItemEvent "item_added" (data response)) published
        [Respond {| code := 201; body := Json (data response) |}]
        item_service_timeout
  | Thrown _ => item_service_timeout
  end.

(** [app.put('/items/:id', ...)]. *)
Definition put_items_id (r : Awaited) (published : bool) : list Effect :=
  match r with
  | Returned response =>
      if decide (status response = "success") then
        broadcast (ItemEvent "item_updated" (data response)) published
          [Respond {| code := 200; body := Json (data response) |}]
          item_service_timeout
      else [Respond {| code := 404; body := Text (message response) |}]
  | Thrown _ => item_service_timeout
  end.

(** [app.delete('/items/:id', ...)]. *)
Definition delete_items_id (id : option Z) (r : Awaited) (published : bool)
  : list Effect :=
  match r with
  | Returned response =>
      if decide (status response = "success") then
        broadcast (IdEvent "item_deleted" id) published
          [Respond {| code := 204; body := StatusText |}]
          item_service_timeout
      else [Respond {| code := 404; body := Text (message response) |}]
  | Thrown _ => item_service_timeout
  end.

(** The fan-out events a handler published, and the statuses it sent. *)
Definition published_types (effs : list Effect) : list string :=
  omap (λ e, match e with
             | Publish _ (ItemEvent ty _) | Publish _ (IdEvent ty _) => Some ty
             | _ => None
             end) effs.

Definition response_codes (effs : list Effect) : list nat :=
  omap (λ e, match e with Respond r => Some (code r) | _ => None end) effs.

End Gateway.

Arguments Envelope : clear implicits.
Arguments State : clear implicits.
Arguments Event : clear implicits.
Arguments Settle : clear implicits.
Arguments JSArg : clear implicits.
Arguments Awaited : clear implicits.
Arguments Effect : clear implicits.

(** ** The broker client: the retry loop of [setupRabbitMQ] *)

Definition maxRetries : nat := 5.

(** The delay of the [setTimeout] in the [catch] of the loop. *)
Definition backoffMs : N := 5000.

Inductive BrokerEvent :=
| Attempt (connected : bool)
| Backoff (ms : N).

(** How [setupRabbitMQ] ends: it returns with the consumers installed, or
    it calls [process.exit]. *)
Inductive Startup := Connected | Exit (code : nat).

(** [while (retries < maxRetries) { try { ...; return } catch { retries++;
    await sleep(5000) } } process.exit(1)].  [attempt i] tells whether the
    body of the [try] goes through when [retries] is [i]; the events are
    accumulated in [log]. *)
Equations? setupRabbitMQ_loop (attempt : nat → bool) (retries : nat)
    (log : list BrokerEvent) : Startup * list BrokerEvent
    by wf (maxRetries - retries) lt :=
  setupRabbitMQ_loop attempt retries log with lt_dec retries maxRetries := {
    | left _ =>
        if attempt retries then (Connected, log ++ [Attempt true])
        else setupRabbitMQ_loop attempt (S retries)
               (log ++ [Attempt false; Backoff backoffMs])
    | right _ => (Exit 1, log) }.
Proof. unfold maxRetries in *. lia. Qed.

(** [k] failed rounds of the loop: an attempt that fails, then the wait. *)
Fixpoint failed_rounds (k : nat) : list BrokerEvent :=
  match k with
  | 0 => []
  | S k' => Attempt false :: Backoff backoffMs :: failed_rounds k'
  end.

Definition is_attempt (e : BrokerEvent) : bool :=
  match e with Attempt _ => true | Backoff _ => false end.

(** How many times the log shows a connection being tried. *)
Definition attempts (log : list BrokerEvent) : nat :=
  length (filter (λ e, is_attempt e = true) log).

Definition setupRabbitMQ (attempt : nat → bool) : Startup * list BrokerEvent :=
  setupRabbitMQ_loop attempt 0 [].

(** The end of the module: [await setupRabbitMQ(); server.listen(port)]. *)
Inductive Process := Listening (port : nat) | Exited (code : nat).

Definition port : nat := 3000.

Definition main (attempt : nat → bool) : Process :=
  match (setupRabbitMQ attempt).1 with
  | Connected => Listening port
  | Exit c => Exited c
  end.


(** ** Sample data for the examples *)

(** The double quote, and a JSON string literal without escapes. *)
Definition dquote : string := String (Ascii.ascii_of_nat 34) EmptyString.

Definition json_string (s : string) : string := dquote +:+ s +:+ dquote.

(** [{"status":"success","data":"Milk"}] and what it parses to. *)
Definition created_text : string :=
  "{" +:+ json_string "status" +:+ ":" +:+ json_string "success" +:+ ","
  +:+ json_string "data" +:+ ":" +:+ json_string "Milk" +:+ "}".

Definition created_reply : Envelope string :=
  {| status := "success"; data := Some "Milk"; message := None |}.

(** [{"status":"error","message":"Item not found"}] and what it parses
    to. *)
Definition not_found_text : string :=
  "{" +:+ json_string "status" +:+ ":" +:+ json_string "error" +:+ ","
  +:+ json_string "message" +:+ ":" +:+ json_string "Item not found" +:+ "}".

Definition not_found_reply : Envelope string :=
  {| status := "error"; data := None; message := Some "Item not found" |}.

(** The reply of the user service to a signup with a taken name. *)
Definition username_exists_reply : Envelope string :=
  {| status := "error"; data := None;
     message := Some "Username already exists" |}.

(** [JSON.parse] restricted to the texts that the examples deliver: the
    two replies above, and texts that are not JSON, such as a lone
    brace. *)
Definition sample_parse (text : string) : option (Envelope string) :=
  if decide (text = created_text) then Some created_reply
  else if decide (text = not_found_text) then Some not_found_reply
  else None.

Definition reply (c text : string) : Message :=
  {| correlationId := Some c; content := text |}.

(** ** More of the event loop *)

Section Gateway_more.
Context {Value : Type}.



End Gateway_more.

(** ** More of the router: what a handler ends with, what it sends *)

Section Router_more.
Context {Value : Type}.

(** A handler ends a request by sending a response or by calling
    [next()]. *)
Definition terminal (e : Effect Value) : bool :=
  match e with
  | Respond _ | Next _ => true
  | Publish _ _ => false
  end.

(** The events a handler published, whole. *)
Definition published_events (effs : list (Effect Value))
  : list (string * FanoutEvent) :=
  omap (λ e, match e with Publish ch ev => Some (ch, ev) | _ => None end) effs.

End Router_more.

Section Objects.
(** A JavaScript object as the handlers build it: its own enumerable
    properties in creation order, a property definition being [Map_set]
    (an existing key keeps its place and takes the new value). *)
Context {V : Type}.

(** [...source] inside an object literal. *)
Definition obj_spread (target source : list (string * V))
  : list (string * V) :=
  foldl (λ o kv, Map_set o kv.1 kv.2) target source.

(** The payload of [POST /items]:
    [{ ...req.body, userEmail: req.user.username }]. *)
Definition create_item_payload (body : list (string * V)) (username : V)
  : list (string * V) :=
  Map_set (obj_spread [] body) "userEmail" username.

(** The payload of [PUT /items/:id]:
    [{ id: parseInt(req.params.id), ...req.body,
       userEmail: req.user.username }]. *)
Definition update_item_payload (id : V) (body : list (string * V))
    (username : V) : list (string * V) :=
  Map_set (obj_spread (Map_set [] "id" id) body) "userEmail" username.

(** The payload of [DELETE /items/:id]:
    [{ id, userEmail: req.user.username }]. *)
Definition delete_item_payload (id username : V) : list (string * V) :=
  Map_set (Map_set [] "id" id) "userEmail" username.

End Objects.

(** ** The shopping list component of the web client *)

(** The later of the two versions of the component; the earlier one has no
    [item_deleted] branch, no [deleteItem] and no local toggle. *)

Section Client.
(** What an item carries besides [id] and [bought]: the component only
    shows it. *)
Context {Fields : Type}.

Record Item := {
  item_id : Z;
  bought : bool;
  item_fields : Fields
}.

(** A pushed message after [JSON.parse]: [msg.type], [msg.item],
    [msg.id]; [None] is [undefined]. *)
Record Push := {
  push_type : string;
  push_item : option Item;
  push_id : option Z
}.

(** [this.items.map(i => i.id === msg.item.id ? msg.item : i)].  Reading
    [id] of [undefined] throws a [TypeError], here [None]; with no element
    the callback does not run. *)
Fixpoint items_replace (item : option Item) (items : list (option Item))
  : option (list (option Item)) :=
  match items with
  | [] => Some []
  | i :: rest =>
      match i, item with
      | Some i', Some item' =>
          cons (if decide (item_id i' = item_id item') then Some item'
                else Some i')
          <$> items_replace item rest
      | _, _ => None
      end
  end.

(** [this.items.filter(i => i.id !== id)]; an [id] that is [undefined]
    differs from every item's. *)
Fixpoint items_remove (id : option Z) (items : list (option Item))
  : option (list (option Item)) :=
  match items with
  | [] => Some []
  | i :: rest =>
      match i with
      | Some i' =>
          (if decide (Some (item_id i') = id) then λ l, l else cons (Some i'))
          <$> items_remove id rest
      | None => None
      end
  end.

(** [this.items.map(i => i.id === item.id ? { ...i, bought: !i.bought }
    : i)]. *)
Fixpoint items_toggle (id : Z) (items : list (option Item))
  : option (list (option Item)) :=
  match items with
  | [] => Some []
  | i :: rest =>
      match i with
      | Some i' =>
          cons (if decide (item_id i' = id)
                then Some {| item_id := item_id i';
                             bought := negb (bought i');
                             item_fields := item_fields i' |}
                else Some i')
          <$> items_toggle id rest
      | None => None
      end
  end.

(** An assignment to [this.items] that happens only if computing the new
    list did not throw. *)
Definition assign (items : list (option Item))
    (new : option (list (option Item)))
  : list (option Item) * Completion :=
  match new with
  | Some l => (l, Normal)
  | None => (items, Throw "TypeError")
  end.

(** The [message] listener of the WebSocket: three [if]s in a row on
    [msg.type]. *)
Definition on_message (msg : Push) (items : list (option Item))
  : list (option Item) * Completion :=
  let items1 :=
    if decide (push_type msg = "item_added")
    then items ++ [push_item msg] else items in
  match
    (if decide (push_type msg = "item_updated")
     then assign items1 (items_replace (push_item msg) items1)
     else (items1, Normal))
  with
  | (items2, Normal) =>
      if decide (push_type msg = "item_deleted")
      then assign items2 (items_remove (push_id msg) items2)
      else (items2, Normal)
  | thrown => thrown
  end.

(** [addItem] once the answer to [POST /items] is there: [newItem] is the
    parsed body of an answer that is [ok], [None] for any other answer. *)
Definition addItem (newItem : option Item) (items : list (option Item))
  : list (option Item) :=
  match newItem with
  | Some item => items ++ [Some item]
  | None => items
  end.

(** [toggleBought(item)] up to its [fetch]: the local toggle. *)
Definition toggleBought (item : Item) (items : list (option Item))
  : list (option Item) * Completion :=
  assign items (items_toggle (item_id item) items).

(** [deleteItem(item)] after its [fetch], whose answer it does not look
    at. *)
Definition deleteItem (item : Item) (items : list (option Item))
  : list (option Item) * Completion :=
  assign items (items_remove (Some (item_id item)) items).

(** The ids of the entries, in order; [None] for an entry that is
    [undefined]. *)
Definition item_ids (items : list (option Item)) : list (option Z) :=
  (λ i : option Item, item_id <$> i) <$> items.

(** How many entries of the list are items with that id. *)
Definition count_id (id : Z) (items : list (option Item)) : nat :=
  length (filter (λ i, item_id <$> i = Some id) items).

End Client.

Arguments Item : clear implicits.
Arguments Push : clear implicits.

(** ** The workers behind the two request queues *)

(** An error object as the handlers look at it: [err.code] and
    [err.message], [None] for [undefined]. *)
Record JSError := {
  err_code : option string;
  err_message : option string
}.

(** A [TypeError] of the runtime; it has no [code]. *)
Definition TypeError (text : string) : JSError :=
  {| err_code := None; err_message := Some text |}.

(** A message as [channel.consume] hands it to the handler: [msg.content]
    and [msg.properties.correlationId] in [job_message],
    [msg.properties.replyTo] beside it. *)
Record Job := {
  job_message : Message;
  replyTo : option string
}.

(** [const { command, payload } = ...] of a value that is not [null]:
    for [command], [None] is anything but a string; for [payload], [None]
    is [undefined] or [null]. *)
Record Parsed (Payload : Type) := {
  command : option string;
  payload : option Payload
}.

Arguments command {_} _.
Arguments payload {_} _.

(** What a handler does to the outside: [pool.query], a [producer.send]
    that went through, [channel.sendToQueue] and [channel.ack]. *)
Inductive WorkerEffect (Query Event Value : Type) :=
| Queried (q : Query)
| Produced (topic : string) (value : Event)
| Replied (queue : option string) (response : Envelope Value)
    (cid : option string)
| Acked.

Arguments Queried {_ _ _} q.
Arguments Produced {_ _ _} topic value.
Arguments Replied {_ _ _} queue response cid.
Arguments Acked {_ _ _}.

Section Worker.
Context {Query Event Value : Type}.

(** [{ status: 'success', data }] and [{ status: 'error', message }]. *)
Definition success (d : option Value) : Envelope Value :=
  {| status := "success"; data := d; message := None |}.

Definition failure (m : option string) : Envelope Value :=
  {| status := "error"; data := None; message := m |}.

(** The outer [catch] of a handler: [response = { status: 'error',
    message: err.message }]. *)
Definition catch_error (r : Envelope Value + JSError) : Envelope Value :=
  match r with
  | inl response => response
  | inr err => failure (err_message err)
  end.

(** The end of a handler: the reply, then the acknowledgement. *)
Definition reply_and_ack (msg : Job) (response : Envelope Value)
  : list (WorkerEffect Query Event Value) :=
  [Replied (replyTo msg) response (correlationId (job_message msg)); Acked].

Definition is_query (e : WorkerEffect Query Event Value) : bool :=
  match e with Queried _ => true | _ => false end.

Definition is_produced (e : WorkerEffect Query Event Value) : bool :=
  match e with Produced _ _ => true | _ => false end.

Definition is_reply (e : WorkerEffect Query Event Value) : bool :=
  match e with Replied _ _ _ => true | _ => false end.

Definition is_ack (e : WorkerEffect Query Event Value) : bool :=
  match e with Acked => true | _ => false end.

End Worker.

(** The connection loop of [startItemService] and [startUserService]:
    [while (retries < maxRetries) { try { ...; return } catch { retries++;
    await sleep(5000) } } process.exit(1)].  [true] is the [return] inside
    the [try], [false] the end of the loop. *)
Equations? connect_loop (maxRetries : nat) (attempt : nat → bool)
    (retries : nat) (log : list BrokerEvent) : bool * list BrokerEvent
    by wf (maxRetries - retries) lt :=
  connect_loop maxRetries attempt retries log
    with lt_dec retries maxRetries := {
    | left _ =>
        if attempt retries then (true, log ++ [Attempt true])
        else connect_loop maxRetries attempt (S retries)
               (log ++ [Attempt false; Backoff 5000])
    | right _ => (false, log) }.
Proof. lia. Qed.

(** How a worker's start function ends: it returns with the consumer of
    its queue installed, it calls [process.exit], or its promise is
    rejected, which nothing handles. *)
Inductive WorkerStart :=
| Consuming (queue : string)
| ProcessExit (exit_code : nat)
| Unhandled.

(** A start function: [await initializeDatabase()], which exits with 1
    when its query fails; [await producer.connect()]; the connection
    loop. *)
Definition start_worker (queue : string) (maxRetries : nat)
    (database producer : bool) (attempt : nat → bool)
  : WorkerStart * list BrokerEvent :=
  if database then
    if producer then
      match connect_loop maxRetries attempt 0 [] with
      | (true, log) => (Consuming queue, log)
      | (false, log) => (ProcessExit 1, log)
      end
    else (Unhandled, [])
  else (ProcessExit 1, []).

Module ItemService.
Section ItemService.
(** A row of [items] as the driver returns it, and the [payload] of a
    request; the handler passes both on without looking inside, apart
    from the properties of the payload that it reads for the parameters
    of a statement. *)
Context {Row Payload : Type}.

(** The statements of the handler with the payload their parameters are
    read from. *)
Inductive Query :=
| SelectItems
| InsertItem (pl : Payload)
| UpdateItem (pl : Payload)
| DeleteItem (pl : Payload).

(** [data] of a reply: [result.rows], or one row. *)
Inductive Data :=
| AllRows (rows : list Row)
| OneRow (row : Row).

(** The value of a Kafka message:
    [{ ...row, userEmail: payload.userEmail }]. *)
Record KafkaValue := {
  event_row : option Row;
  event_payload : Payload
}.

(** [JSON_parse]: [None] when [JSON.parse] throws, [Some None] when it
    returns [null].  [pool_query]: the rows, or the error the query is
    rejected with.  [producer_send]: [None] when the send to the topic
    goes through, or the error it is rejected with.  [type_error_text]:
    the message of the runtime's [TypeError] for reading that property of
    [undefined]. *)
Context (JSON_parse : string → option (option (Parsed Payload)))
        (pool_query : Query → list Row + JSError)
        (producer_send : string → option JSError)
        (type_error_text : string → string).

Definition maxRetries : nat := 10.

(** The [switch] inside the [try]: what it does, and the response it
    assigns or the error it throws. *)
Definition switch (req : Parsed Payload)
  : list (WorkerEffect Query KafkaValue Data) * (Envelope Data + JSError) :=
  if decide (command req = Some "get_items") then
    ([Queried SelectItems],
     match pool_query SelectItems with
     | inl rows => inl (success (Some (AllRows rows)))
     | inr err => inr err
     end)
  else if decide (command req = Some "create_item") then
    match payload req with
    | None => ([], inr (TypeError (type_error_text "name")))
    | Some pl =>
        match pool_query (InsertItem pl) with
        | inl rows =>
            let newItem := head rows in
            match producer_send "item-created" with
            | None =>
                ([Queried (InsertItem pl);
                  Produced "item-created"
                    {| event_row := newItem; event_payload := pl |}],
                 inl (success (OneRow <$> newItem)))
            | Some err => ([Queried (InsertItem pl)], inr err)
            end
        | inr err => ([Queried (InsertItem pl)], inr err)
        end
    end
  else if decide (command req = Some "update_item") then
    match payload req with
    | None => ([], inr (TypeError (type_error_text "name")))
    | Some pl =>
        match pool_query (UpdateItem pl) with
        | inl [] =>
            ([Queried (UpdateItem pl)],
             inl (failure (Some "Item not found")))
        | inl (updatedItem :: _) =>
            match producer_send "item-updated" with
            | None =>
                ([Queried (UpdateItem pl);
                  Produced "item-updated"
                    {| event_row := Some updatedItem; event_payload := pl |}],
                 inl (success (Some (OneRow updatedItem))))
            | Some err => ([Queried (UpdateItem pl)], inr err)
            end
        | inr err => ([Queried (UpdateItem pl)], inr err)
        end
    end
  else if decide (command req = Some "delete_item") then
    match payload req with
    | None => ([], inr (TypeError (type_error_text "id")))
    | Some pl =>
        ([Queried (DeleteItem pl)],
         match pool_query (DeleteItem pl) with
         | inl [] => inl (failure (Some "Item not found"))
         | inl (_ :: _) => inl (success None)
         | inr err => inr err
         end)
    end
  else ([], inl (failure (Some "Unknown command"))).

(** [handleRequest(msg, channel)].  The first statement is outside the
    [try]; [channel.sendToQueue] and [channel.ack] are taken to return. *)
Definition handleRequest (msg : Job)
  : list (WorkerEffect Query KafkaValue Data) * Completion :=
  match JSON_parse (content (job_message msg)) with
  | None => ([], Throw "SyntaxError")
  | Some None => ([], Throw "TypeError")
  | Some (Some req) =>
      let '(effs, r) := switch req in
      (effs ++ reply_and_ack msg (catch_error r), Normal)
  end.

End ItemService.

Definition startItemService := start_worker "item_requests" maxRetries.

End ItemService.

Module UserService.
Section UserService.
(** A row of [users], the [payload] of a request, the result of
    [bcrypt.hash], a signed token and the decoded content of a verified
    one. *)
Context {Row Payload Hash Token Decoded : Type}.

Inductive Query :=
| InsertUser (pl : Payload) (hashedPassword : Hash)
| SelectUser (pl : Payload).

(** [data] of a reply: [{ user: { id, username }, token }] made from a
    row, or [{ user: decoded }]. *)
Inductive Data :=
| Session (user : Row) (token : Token)
| Verified (decoded : Decoded).

(** [bcrypt_hash]: [bcrypt.hash(password, 10)] on the payload's password.
    [bcrypt_compare]: [bcrypt.compare] of the payload's password with the
    row's hash.  [jwt_sign]: [jwt.sign] for a row, taken to return.
    [jwt_verify]: [jwt.verify] of the payload's token, [None] when it
    throws.  The others as in the item service. *)
Context (JSON_parse : string → option (option (Parsed Payload)))
        (pool_query : Query → list Row + JSError)
        (producer_send : string → option JSError)
        (bcrypt_hash : Payload → Hash + JSError)
        (bcrypt_compare : Payload → Row → bool + JSError)
        (jwt_sign : Row → Token)
        (jwt_verify : Payload → option Decoded)
        (type_error_text : string → string).

Definition maxRetries : nat := 10.

(** The [catch] around the insertion of [signup]. *)
Definition unique_violation (err : JSError) : Envelope Data + JSError :=
  if decide (err_code err = Some "23505")
  then inl (failure (Some "Username already exists"))
  else inr err.

(** The [switch] inside the [try]. *)
Definition switch (req : Parsed Payload)
  : list (WorkerEffect Query Row Data) * (Envelope Data + JSError) :=
  if decide (command req = Some "signup") then
    match payload req with
    | None => ([], inr (TypeError (type_error_text "username")))
    | Some pl =>
        match bcrypt_hash pl with
        | inr err => ([], inr err)
        | inl hashedPassword =>
            let q := InsertUser pl hashedPassword in
            match pool_query q with
            | inr err => ([Queried q], unique_violation err)
            | inl rows =>
                match head rows with
                | None =>
                    ([Queried q],
                     unique_violation (TypeError (type_error_text "id")))
                | Some user =>
                    match producer_send "user-created" with
                    | None =>
                        ([Queried q; Produced "user-created" user],
                         inl (success (Some (Session user (jwt_sign user)))))
                    | Some err => ([Queried q], unique_violation err)
                    end
                end
            end
        end
    end
  else if decide (command req = Some "login") then
    match payload req with
    | None => ([], inr (TypeError (type_error_text "username")))
    | Some pl =>
        ([Queried (SelectUser pl)],
         match pool_query (SelectUser pl) with
         | inr err => inr err
         | inl rows =>
             match head rows with
             | None => inl (failure (Some "Invalid credentials"))
             | Some user =>
                 match bcrypt_compare pl user with
                 | inr err => inr err
                 | inl true =>
                     inl (success (Some (Session user (jwt_sign user))))
                 | inl false => inl (failure (Some "Invalid credentials"))
                 end
             end
         end)
    end
  else if decide (command req = Some "verify_token") then
    match payload req with
    | None => ([], inr (TypeError (type_error_text "token")))
    | Some pl =>
        ([],
         match jwt_verify pl with
         | Some decoded => inl (success (Some (Verified decoded)))
         | None => inl (failure (Some "Invalid or expired token"))
         end)
    end
  else ([], inl (failure (Some "Unknown command"))).

(** [handleRequest(msg, channel)]. *)
Definition handleRequest (msg : Job)
  : list (WorkerEffect Query Row Data) * Completion :=
  match JSON_parse (content (job_message msg)) with
  | None => ([], Throw "SyntaxError")
  | Some None => ([], Throw "TypeError")
  | Some (Some req) =>
      let '(effs, r) := switch req in
      (effs ++ reply_and_ack msg (catch_error r), Normal)
  end.

End UserService.

Definition startUserService := start_worker "user_requests" maxRetries.

End UserService.

(** ** Sample data for the examples of the client and the workers *)

(** Two items of a list, and the first one as the server sends it after
    an update. *)
Definition milk_item : Item string :=
  {| item_id := 1; bought := false; item_fields := "Milk" |}.

Definition eggs_item : Item string :=
  {| item_id := 2; bought := false; item_fields := "Eggs" |}.

Definition milk_bought : Item string :=
  {| item_id := 1; bought := true; item_fields := "Milk" |}.

Definition push (type : string) (item : option (Item string))
    (id : option Z) : Push string :=
  {| push_type := type; push_item := item; push_id := id |}.

(** A JavaScript object with string values, and the text of a request
    [{"command":...,"payload":...}]. *)
Definition JSObject : Type := list (string * string).

Definition json_request (command payload_text : string) : string :=
  "{" +:+ json_string "command" +:+ ":" +:+ json_string command +:+ ","
  +:+ json_string "payload" +:+ ":" +:+ payload_text +:+ "}".

(** [JSON.parse] restricted to [null] and to the requests with the
    commands of the workers and one given payload. *)
Definition sample_request_parse (payload_text : string) (pl : JSObject)
    (text : string) : option (option (Parsed JSObject)) :=
  if decide (text = "null") then Some None
  else
    match
      List.find (λ c, bool_decide (text = json_request c payload_text))
        ["get_items"; "create_item"; "update_item"; "delete_item";
         "signup"; "login"; "verify_token"]
    with
    | Some c => Some (Some {| command := Some c; payload := Some pl |})
    | None => None
    end.

Definition sample_type_error_text (property : string) : string :=
  "Cannot read properties of undefined (reading '" +:+ property +:+ "')".

Definition job (cid command payload_text : string) : Job :=
  {| job_message := reply cid (json_request command payload_text);
     replyTo := Some "amq.gen-1" |}.

(** A request body of the item routes, and the row it becomes. *)
Definition milk_text : string :=
  "{" +:+ json_string "name" +:+ ":" +:+ json_string "Milk" +:+ "}".

Definition milk_payload : JSObject := [("name", "Milk")].

Definition milk_row : JSObject := [("id", "1"); ("name", "Milk")].

(** A database that answers every statement with the same rows, a Kafka
    producer that is connected and one whose sends are rejected. *)
Definition sample_rows {Query : Type} (rows : list JSObject)
  : Query → list JSObject + JSError :=
  λ _, inl rows.

Definition kafka_up : string → option JSError := λ _, None.

Definition kafka_down : string → option JSError :=
  λ _, Some {| err_code := None; err_message := Some "Connection error" |}.

(** A request body of the user routes, the row of that user, and a
    database in which the name is taken. *)
Definition ann_text : string :=
  "{" +:+ json_string "username" +:+ ":" +:+ json_string "ann" +:+ ","
  +:+ json_string "password" +:+ ":" +:+ json_string "pw" +:+ "}".

Definition ann_payload : JSObject := [("username", "ann"); ("password", "pw")].

Definition ann_row : JSObject := [("id", "1"); ("username", "ann")].

Definition name_taken {Query : Type} : Query → list JSObject + JSError :=
  λ _, inr {| err_code := Some "23505";
              err_message := Some "duplicate key value" |}.

(** The libraries of the user worker on the samples: a hash and a token
    that are texts, a comparison that fails, a verification that
    succeeds only for the payload [ann_payload]. *)
Definition sample_hash : JSObject → string + JSError := λ _, inl "$2b$10$h".

Definition sample_compare : JSObject → JSObject → bool + JSError :=
  λ _ _, inl false.

Definition sample_sign : JSObject → string := λ _, "jwt".

Definition sample_verify : JSObject → option JSObject :=
  λ pl, if decide (pl = ann_payload) then Some ann_row else None.
(** * Facts *)

(** ** The entry list behaves as a map *)

Section JSMap_facts.
Context {V : Type}.
Implicit Types (m : list (string * V)) (k : string) (v : V).

Lemma Map_has_get m k : Map_has m k = true ↔ is_Some (Map_get m k).
Proof.
  induction m as [|[k' v] m IH]; simpl.
  - split; [done | by intros [? ?]].
  - case_decide; [|done]. split; eauto.
Qed.

Lemma Map_has_false m k : Map_has m k = false ↔ Map_get m k = None.
Proof.
  induction m as [|[k' v] m IH]; simpl; [done|].
  by case_decide.
Qed.

Lemma Map_get_None m k : Map_get m k = None ↔ k ∉ m.*1.
Proof.
  induction m as [|[k' v] m IH]; simpl.
  - split; [intros _; apply not_elem_of_nil | done].
  - rewrite not_elem_of_cons. case_decide; subst.
    + split; [done | by intros [? _]].
    + rewrite IH. split; [intros ?; split; [congruence | done] | by intros [_ ?]].
Qed.

Lemma Map_get_set m k v k' :
  Map_get (Map_set m k v) k' =
    if decide (k = k') then Some v else Map_get m k'.
Proof.
  induction m as [|[k0 v0] m IH]; simpl.
  - by repeat case_decide.
  - destruct (decide (k0 = k)) as [->|Hne]; simpl.
    + by repeat case_decide.
    + rewrite IH. repeat case_decide; congruence.
Qed.

Lemma Map_set_keys_NoDup m k v : NoDup m.*1 → NoDup (Map_set m k v).*1.
Proof.
  induction m as [|[k0 v0] m IH]; simpl.
  - intros _. apply NoDup_singleton.
  - rewrite NoDup_cons. intros [Hk0 Hm].
    case_decide; simpl; rewrite NoDup_cons; [done|].
    split; [|auto].
    rewrite <- Map_get_None, Map_get_set.
    case_decide; [congruence|]. by apply Map_get_None.
Qed.

Lemma Map_delete_keys_subseteq m k : (Map_delete m k).*1 ⊆ m.*1.
Proof.
  induction m as [|[k0 v0] m IH]; simpl; [done|].
  case_decide; simpl.
  - intros x Hx. by apply list_elem_of_further.
  - intros x. rewrite !elem_of_cons. intros [->|Hx]; [by left | right; by apply IH].
Qed.

Lemma Map_delete_keys_NoDup m k : NoDup m.*1 → NoDup (Map_delete m k).*1.
Proof.
  induction m as [|[k0 v0] m IH]; simpl; [done|].
  rewrite NoDup_cons. intros [Hk0 Hm].
  case_decide; simpl; [done|].
  rewrite NoDup_cons. split; [|auto].
  intros Hin. apply Hk0. by apply (Map_delete_keys_subseteq m k).
Qed.

Lemma Map_get_delete m k k' :
  NoDup m.*1 →
  Map_get (Map_delete m k) k' =
    if decide (k = k') then None else Map_get m k'.
Proof.
  induction m as [|[k0 v0] m IH]; simpl.
  - intros _. by case_decide.
  - rewrite NoDup_cons. intros [Hk0 Hm].
    destruct (decide (k0 = k)) as [->|Hne]; simpl.
    + destruct (decide (k = k')) as [->|Hne']; [|done].
      by apply Map_get_None.
    + rewrite IH by done. repeat case_decide; congruence.
Qed.

Lemma Map_delete_absent m k : Map_get m k = None → Map_delete m k = m.
Proof.
  induction m as [|[k0 v0] m IH]; simpl; [done|].
  case_decide; [done|]. intros H'. by rewrite IH.
Qed.
Lemma Map_get_delete_Some m k k' v :
  NoDup m.*1 → Map_get (Map_delete m k) k' = Some v →
  k ≠ k' ∧ Map_get m k' = Some v.
Proof.
  intros Hm. rewrite Map_get_delete by done. by case_decide.
Qed.
End JSMap_facts.

Lemma NoDup_fmap_elem_inj {A B} (f : A → B) (l : list A) x y :
  NoDup (f <$> l) → x ∈ l → y ∈ l → f x = f y → x = y.
Proof.
  induction l as [|a l IH]; simpl; [by intros _ ?%elem_of_nil|].
  rewrite NoDup_cons.
  intros [Ha Hl] [->|Hx]%elem_of_cons [->|Hy]%elem_of_cons Heq; [done| | |auto].
  - destruct Ha. rewrite Heq. by apply list_elem_of_fmap_2.
  - destruct Ha. rewrite <- Heq. by apply list_elem_of_fmap_2.
Qed.


(** ** The state accessors *)

Section Gateway_facts.
Context {Value : Type} (JSON_parse : string → option (Envelope Value)).
Implicit Types (st : State Value) (b : Backend) (t : Timer) (p : nat).
Implicit Types (e : Event Value) (evs : list (Event Value)).

Local Abbreviation step := (step JSON_parse).
Local Abbreviation run := (run JSON_parse).
Local Abbreviation fresh := (fresh JSON_parse).

Lemma pending_with_pending b b' m st :
  pending b' (with_pending b m st) = if decide (b = b') then m else pending b' st.
Proof. by destruct b, b'. Qed.

Lemma pending_with_settle b s st : pending b (with_settle s st) = pending b st.
Proof. by destruct b. Qed.

Lemma timers_with_pending b m st : timers (with_pending b m st) = timers st.
Proof. by destruct b. Qed.

Lemma settlements_with_pending b m st :
  settlements (with_pending b m st) = settlements st.
Proof. by destruct b. Qed.

Lemma nextPromise_with_pending b m st :
  nextPromise (with_pending b m st) = nextPromise st.
Proof. by destruct b. Qed.

Lemma now_with_pending b m st : now (with_pending b m st) = now st.
Proof. by destruct b. Qed.

Lemma outcomes_with_pending p b m st :
  outcomes p (with_pending b m st) = outcomes p st.
Proof. unfold outcomes. by rewrite settlements_with_pending. Qed.

Lemma outcomes_with_settle p s st :
  outcomes p (with_settle s st) =
    outcomes p st ++ (if decide (settle_promise s = p) then [s] else []).
Proof.
  unfold outcomes; simpl. by rewrite filter_app.
Qed.

(** ** What one event changes *)

Lemma step_Call st b command payload rnd :
  ∃ st', step st (Call b command payload rnd) = (st', Normal)
    ∧ now st' = now st
    ∧ nextPromise st' = S (nextPromise st)
    ∧ (∀ b', pending b' st' =
         if decide (b = b')
         then Map_set (pending b st) (generateUuid rnd (now st))
                (ResolveOf (nextPromise st))
         else pending b' st)
    ∧ timers st' =
        timers st ++
          [{| deadline := now st + timeoutMs; tmap := b;
              tcid := generateUuid rnd (now st);
              tpromise := nextPromise st |}]
    ∧ settlements st' = settlements st.
Proof.
  destruct b; (eexists; split; [reflexivity|]);
    (repeat split; [by intros []]).
Qed.

Lemma step_CallThrows st b command payload rnd error :
  ∃ st', step st (CallThrows b command payload rnd error) = (st', Normal)
    ∧ now st' = now st
    ∧ nextPromise st' = S (nextPromise st)
    ∧ (∀ b', pending b' st' =
         if decide (b = b')
         then Map_set (pending b st) (generateUuid rnd (now st))
                (ResolveOf (nextPromise st))
         else pending b' st)
    ∧ timers st' = timers st
    ∧ settlements st' =
        settlements st ++ [Reject (nextPromise st) (AThrown error)].
Proof.
  destruct b; (eexists; split; [reflexivity|]);
    (repeat split; [by intros []]).
Qed.

Lemma timeout_timers t st : timers (timeout t st) = timers st.
Proof.
  unfold timeout. case_match; [|done]. simpl. apply timers_with_pending.
Qed.

Lemma timeout_now t st : now (timeout t st) = now st.
Proof.
  unfold timeout. case_match; [|done]. simpl. apply now_with_pending.
Qed.

Lemma timeout_nextPromise t st : nextPromise (timeout t st) = nextPromise st.
Proof.
  unfold timeout. case_match; [|done]. simpl. apply nextPromise_with_pending.
Qed.

Lemma timeout_settlements t st :
  settlements (timeout t st) =
    settlements st ++
      (if Map_has (pending (tmap t) st) (tcid t)
       then [Reject (tpromise t) (AError "RPC timeout")] else []).
Proof.
  unfold timeout. case_match; simpl.
  - by rewrite settlements_with_pending.
  - by rewrite app_nil_r.
Qed.

Lemma timeout_pending t st b :
  pending b (timeout t st) =
    if decide (tmap t = b)
    then Map_delete (pending b st) (tcid t)
    else pending b st.
Proof.
  unfold timeout. destruct (Map_has _ _) eqn:Hhas.
  - destruct t as [d [] c p], b; simpl in *; by repeat case_decide.
  - case_decide as Hb; [|done]. subst b.
    symmetry. apply Map_delete_absent. by apply Map_has_false.
Qed.

Lemma foldl_timeout_timers ts st :
  timers (foldl (λ s t, timeout t s) st ts) = timers st.
Proof.
  revert st. induction ts as [|t ts IH]; intros st; simpl; [done|].
  by rewrite IH, timeout_timers.
Qed.

Lemma foldl_timeout_now ts st :
  now (foldl (λ s t, timeout t s) st ts) = now st.
Proof.
  revert st. induction ts as [|t ts IH]; intros st; simpl; [done|].
  by rewrite IH, timeout_now.
Qed.

Lemma foldl_timeout_nextPromise ts st :
  nextPromise (foldl (λ s t, timeout t s) st ts) = nextPromise st.
Proof.
  revert st. induction ts as [|t ts IH]; intros st; simpl; [done|].
  by rewrite IH, timeout_nextPromise.
Qed.

Lemma foldl_timeout_settlements ts st :
  ∃ new, settlements (foldl (λ s t, timeout t s) st ts) = settlements st ++ new
    ∧ ∀ s, s ∈ new → ∃ p, s = Reject p (AError "RPC timeout").
Proof.
  revert st. induction ts as [|t ts IH]; intros st; simpl.
  - exists []. split; [by rewrite app_nil_r | by intros ? ?%elem_of_nil].
  - destruct (IH (timeout t st)) as (new & -> & Hnew).
    rewrite timeout_settlements. eexists. rewrite <- app_assoc.
    split; [done|]. intros s [Hs|Hs]%elem_of_app; [|auto].
    case_match; [|by apply elem_of_nil in Hs].
    apply list_elem_of_singleton in Hs. eauto.
Qed.

Lemma run_timers_timers st :
  timers (run_timers st) =
    filter (λ t, ¬ (deadline t ≤ now st)%N) (timers st).
Proof. unfold run_timers. by rewrite foldl_timeout_timers. Qed.

(** The clock and the promise counter only grow, the record of
    settlements is only appended to, no old timer is armed anew, and a
    timer that is not due stays armed. *)
Lemma step_mono st e st' cpl :
  step st e = (st', cpl) →
  nextPromise st ≤ nextPromise st'
  ∧ (now st ≤ now st')%N
  ∧ settlements st `prefix_of` settlements st'
  ∧ (∀ t, t ∈ timers st' → tpromise t < nextPromise st → t ∈ timers st)
  ∧ (∀ t, t ∈ timers st → (now st' < deadline t)%N → t ∈ timers st').
Proof.
  destruct e as [b command payload rnd|b command payload rnd error|b msg|dt|].
  - destruct (step_Call st b command payload rnd)
      as (st1 & -> & Hnow & Hnext & _ & Htimers & Hsettle).
    intros [= <- <-]. rewrite Hnow, Hnext, Htimers, Hsettle.
    split_and!; [lia | done | done | | by intros; apply elem_of_app; left].
    intros t [Ht|Ht]%elem_of_app Hp; [done|].
    apply list_elem_of_singleton in Ht. subst t. simpl in Hp. lia.
  - destruct (step_CallThrows st b command payload rnd error)
      as (st1 & -> & Hnow & Hnext & _ & Htimers & Hsettle).
    intros [= <- <-]. rewrite Hnow, Hnext, Htimers, Hsettle.
    split_and!; [lia | done | by apply prefix_app_r | done | done].
  - simpl. unfold consume.
    destruct (correlationId msg) as [c|];
      [|by intros [= <- <-]; split_and!].
    destruct (Map_get _ c) as [resolver|];
      [|by intros [= <- <-]; split_and!].
    destruct (JSON_parse _) as [v|];
      [|by intros [= <- <-]; split_and!].
    intros [= <- <-].
    rewrite nextPromise_with_pending, now_with_pending,
      settlements_with_pending, timers_with_pending. simpl.
    split_and!; try done. by apply prefix_app_r.
  - simpl. intros [= <- <-]. simpl. split_and!; try done. lia.
  - simpl. intros [= <- <-].
    rewrite run_timers_timers. unfold run_timers.
    rewrite foldl_timeout_nextPromise, foldl_timeout_now. simpl.
    destruct (foldl_timeout_settlements
                (filter (λ t, (deadline t ≤ now st)%N) (timers st))
                (with_timers
                   (filter (λ t, ¬ (deadline t ≤ now st)%N) (timers st)) st))
      as (new & -> & _). simpl.
    split_and!; [done | done | by apply prefix_app_r | |].
    + by intros t [_ Ht]%list_elem_of_filter _.
    + intros t Ht Hdue. apply list_elem_of_filter. split; [lia|done].
Qed.

(** ** Runs *)

Lemma run_app st evs1 evs2 :
  run st (evs1 ++ evs2) = run (run st evs1) evs2.
Proof.
  revert st. induction evs1 as [|e evs1 IH]; intros st; simpl; [done|].
  apply IH.
Qed.

Lemma fresh_app st evs1 evs2 :
  fresh st (evs1 ++ evs2) = fresh st evs1 && fresh (run st evs1) evs2.
Proof.
  revert st. induction evs1 as [|e evs1 IH]; intros st; simpl; [done|].
  by rewrite IH, andb_assoc.
Qed.

Lemma fresh_cons st e evs :
  fresh st (e :: evs) = fresh st [e] && fresh (step st e).1 evs.
Proof. simpl. by rewrite andb_true_r. Qed.

Lemma fresh_Call st b command payload rnd :
  fresh st [Call b command payload rnd] = true →
  token_free b (generateUuid rnd (now st)) st = true.
Proof. simpl. by intros [? _]%andb_true_iff. Qed.

Lemma fresh_CallThrows st b command payload rnd error :
  fresh st [CallThrows b command payload rnd error] = true →
  token_free b (generateUuid rnd (now st)) st = true.
Proof. simpl. by intros [? _]%andb_true_iff. Qed.

Lemma run_mono st evs :
  nextPromise st ≤ nextPromise (run st evs)
  ∧ (now st ≤ now (run st evs))%N
  ∧ settlements st `prefix_of` settlements (run st evs)
  ∧ (∀ t, t ∈ timers (run st evs) → tpromise t < nextPromise st →
          t ∈ timers st)
  ∧ (∀ t, t ∈ timers st → (now (run st evs) < deadline t)%N →
          t ∈ timers (run st evs)).
Proof.
  revert st. induction evs as [|e evs IH]; intros st; simpl.
  - by split_and!.
  - destruct (step st e) as [s c] eqn:Hstep.
    apply step_mono in Hstep as (Hn & Hc & Hs & Hold & Hkeep). simpl.
    destruct (IH s) as (Hn' & Hc' & Hs' & Hold' & Hkeep').
    split_and!; [lia | lia | by etrans | |].
    + intros t Ht Hp. apply Hold; [|done]. apply Hold'; [done|lia].
    + intros t Ht Hd. apply Hkeep'; [|done]. apply Hkeep; [done|lia].
Qed.

Lemma outcomes_prefix p st st' :
  settlements st `prefix_of` settlements st' →
  outcomes p st `prefix_of` outcomes p st'.
Proof.
  intros [new Hnew]. unfold outcomes. rewrite Hnew, filter_app.
  by apply prefix_app_r.
Qed.

(** ** The invariant that needs no assumption on [generateUuid] *)

Lemma pending_with_timers b ts st : pending b (with_timers ts st) = pending b st.
Proof. by destruct b. Qed.

Lemma Basic_init : Basic (@init Value).
Proof.
  split_and!.
  - intros []; apply NoDup_nil_2.
  - by intros [] c f.
  - by intros s ?%elem_of_nil.
Qed.

Lemma Basic_timeout t st : Basic st → Basic (timeout t st).
Proof.
  intros (Hkeys & Hres & Hset). split_and!.
  - intros b. rewrite timeout_pending. case_decide; [|done].
    by apply Map_delete_keys_NoDup.
  - intros b c f. rewrite timeout_pending. case_decide; [|by apply Hres].
    intros [_ Hget]%Map_get_delete_Some; [|done]. by eapply Hres.
  - intros s. rewrite timeout_settlements.
    intros [Hs|Hs]%elem_of_app; [auto|].
    case_match; [|by apply elem_of_nil in Hs].
    apply list_elem_of_singleton in Hs. eauto.
Qed.

Lemma Basic_sendRpc st st' b rnd new :
  Basic st →
  (∀ b', pending b' st' =
     if decide (b = b')
     then Map_set (pending b st) (generateUuid rnd (now st))
            (ResolveOf (nextPromise st))
     else pending b' st) →
  settlements st' = settlements st ++ new →
  (∀ s, s ∈ new → ∃ p error, s = Reject p (AThrown error)) →
  Basic st'.
Proof.
  intros (Hkeys & Hres & Hset) Hpend Hsettle Hnew. split_and!.
  - intros b'. rewrite Hpend. case_decide; [|done].
    by apply Map_set_keys_NoDup.
  - intros b' c f. rewrite Hpend. case_decide; [|by apply Hres].
    rewrite Map_get_set. case_decide; [|by apply Hres].
    intros [= <-]. eauto.
  - intros s. rewrite Hsettle. intros [Hs|Hs]%elem_of_app; auto.
Qed.

Lemma Basic_step st e st' cpl : Basic st → step st e = (st', cpl) → Basic st'.
Proof.
  intros HB.
  destruct e as [b command payload rnd|b command payload rnd error|b msg|dt|].
  - destruct (step_Call st b command payload rnd)
      as (st1 & -> & _ & _ & Hpend & _ & Hsettle).
    intros [= <- <-].
    apply (Basic_sendRpc st _ b rnd []); [done..| |by intros ? ?%elem_of_nil].
    by rewrite app_nil_r.
  - destruct (step_CallThrows st b command payload rnd error)
      as (st1 & -> & _ & _ & Hpend & _ & Hsettle).
    intros [= <- <-].
    eapply (Basic_sendRpc st _ b rnd); [done..|].
    intros s ->%list_elem_of_singleton. eauto.
  - simpl. unfold consume.
    destruct (correlationId msg) as [c|]; [|by intros [= <- <-]].
    destruct (Map_get _ c) as [resolver|] eqn:Hget; [|by intros [= <- <-]].
    destruct (JSON_parse _) as [v|]; [|by intros [= <- <-]].
    intros [= <- <-]. destruct HB as (Hkeys & Hres & Hset).
    split_and!.
    + intros b'. rewrite pending_with_pending, !pending_with_settle.
      case_decide; [|done]. by apply Map_delete_keys_NoDup.
    + intros b' c' f. rewrite pending_with_pending, !pending_with_settle.
      case_decide; [|by apply Hres].
      intros [_ Hget']%Map_get_delete_Some; [|done]. by eapply Hres.
    + intros s. rewrite settlements_with_pending. simpl.
      intros [Hs|Hs]%elem_of_app; [auto|].
      apply list_elem_of_singleton in Hs. subst s.
      destruct (Hres _ _ _ Hget) as [p ->]. simpl. eauto.
  - simpl. by intros [= <- <-].
  - simpl. intros [= <- <-]. unfold run_timers.
    generalize (filter (λ t, (deadline t ≤ now st)%N) (timers st)).
    assert (Basic (with_timers
                     (filter (λ t, ¬ (deadline t ≤ now st)%N) (timers st)) st))
      as HB' by done.
    revert HB'.
    generalize (with_timers
                  (filter (λ t, ¬ (deadline t ≤ now st)%N) (timers st)) st).
    intros s HB' l. revert s HB'.
    induction l as [|t l IH]; intros s HB'; simpl; [done|].
    apply IH. by apply Basic_timeout.
Qed.

Lemma Basic_run st evs : Basic st → Basic (run st evs).
Proof.
  revert st. induction evs as [|e evs IH]; intros st HB; simpl; [done|].
  apply IH. destruct (step st e) as [s c] eqn:Hstep.
  by apply Basic_step in Hstep.
Qed.
(** ** The invariant under fresh correlation ids *)

Lemma with_settle_with_pending s b m st :
  with_settle s (with_pending b m st) = with_pending b m (with_settle s st).
Proof. by destruct b. Qed.

Lemma outcomes_nil_bound p st :
  (∀ s, s ∈ settlements st → settle_promise s < nextPromise st) →
  nextPromise st ≤ p → outcomes p st = [].
Proof.
  intros Hsb Hp. unfold outcomes.
  induction (settlements st) as [|s l IH]; [done|].
  rewrite filter_cons. case_decide as Hs.
  - specialize (Hsb s (list_elem_of_here _ _)). lia.
  - apply IH. intros s' Hs'. apply Hsb. by apply list_elem_of_further.
Qed.

(** *** Promises rejected by their executor *)

Lemma failed_same p st st' :
  settlements st' = settlements st → failed p st' ↔ failed p st.
Proof. intros Hs. unfold failed. by rewrite Hs. Qed.

Lemma failed_mono p st st' :
  settlements st `prefix_of` settlements st' → failed p st → failed p st'.
Proof.
  intros [new Hnew] [error Hin]. exists error. rewrite Hnew.
  apply elem_of_app. by left.
Qed.

Lemma failed_app p st st' s :
  settlements st' = settlements st ++ [s] →
  failed p st' ↔ failed p st ∨ ∃ error, s = Reject p (AThrown error).
Proof.
  intros Hs. unfold failed. rewrite Hs. split.
  - intros [error [Hin|Hin%list_elem_of_singleton]%elem_of_app]; eauto.
  - intros [[error Hin]|[error ->]]; exists error; apply elem_of_app;
      [by left | right; apply list_elem_of_here].
Qed.

Lemma failed_outcomes p st : failed p st → outcomes p st ≠ [].
Proof.
  intros [error Hin] Hnil.
  assert (Reject p (AThrown error) ∈ outcomes p st) as Hin'
    by by apply list_elem_of_filter.
  rewrite Hnil in Hin'. by apply elem_of_nil in Hin'.
Qed.

Lemma failed_bound p st :
  (∀ s, s ∈ settlements st → settle_promise s < nextPromise st) →
  failed p st → p < nextPromise st.
Proof. intros Hsb [error Hin]. apply (Hsb _ Hin). Qed.

Lemma Inv_init : Inv [] (@init Value).
Proof.
  split; simpl.
  - intros []; apply NoDup_nil_2.
  - by intros [] c f.
  - by intros [] c b' c' p.
  - apply NoDup_nil_2.
  - apply NoDup_nil_2.
  - by intros t ?%elem_of_nil.
  - by intros t ?%elem_of_nil.
  - by intros s ?%elem_of_nil.
  - intros p Hp. lia.
  - intros p _. unfold outcomes. simpl. lia.
  - by intros s ?%elem_of_nil.
Qed.

(** The promise of an entry has been created. *)
Lemma Inv_entry_bound ts st b c p :
  Inv ts st → Map_get (pending b st) c = Some (ResolveOf p) →
  p < nextPromise st.
Proof.
  intros HI Hget.
  destruct (inv_pending _ _ HI _ _ _ Hget)
    as [(t & Ht & _ & _ & [= ->] & _)|(q & [= <-] & Hq & _)].
  - by apply (inv_timer_bound _ _ HI).
  - eapply failed_bound; [apply HI|done].
Qed.

(** Every stored value is a [resolve]. *)
Lemma Inv_entry_resolve ts st b c f :
  Inv ts st → Map_get (pending b st) c = Some f → ∃ p, f = ResolveOf p.
Proof.
  intros HI Hget.
  destruct (inv_pending _ _ HI _ _ _ Hget)
    as [(t & _ & _ & _ & -> & _)|(q & -> & _)]; eauto.
Qed.

Lemma Inv_same ts st st' :
  (∀ b, pending b st' = pending b st) →
  nextPromise st' = nextPromise st →
  settlements st' = settlements st →
  Inv ts st → Inv ts st'.
Proof.
  intros Hp Hn Hs [Hkeys Hpend Hent Htk Htp Htb Hts Hsb Hun Honce Hshape].
  assert (∀ p, outcomes p st' = outcomes p st) as Ho
    by (intros p; unfold outcomes; by rewrite Hs).
  assert (∀ p, failed p st' ↔ failed p st) as Hf
    by (intros p; by apply failed_same).
  split.
  - intros b. by rewrite Hp.
  - intros b c f. rewrite Hp.
    intros [(t & ? & ? & ? & ? & ?)|(p & ? & ? & ?)]%Hpend.
    + left. exists t. by rewrite Ho.
    + right. exists p. by rewrite Hf.
  - intros b c b' c' p. rewrite !Hp. apply Hent.
  - done.
  - done.
  - intros t. rewrite Hn. auto.
  - intros t Ht. rewrite Hf. auto.
  - intros s. rewrite Hs, Hn. auto.
  - intros p. rewrite Hn, Ho. intros ? ?.
    destruct (Hun p) as (b & c & ?); [done..|]. exists b, c. by rewrite Hp.
  - intros p. rewrite Hf, Ho. auto.
  - intros s. rewrite Hs. auto.
Qed.

Lemma Inv_perm ts ts' st : ts ≡ₚ ts' → Inv ts st → Inv ts' st.
Proof.
  intros Hperm [Hkeys Hpend Hent Htk Htp Htb Hts Hsb Hun Honce Hshape].
  split; try done.
  - intros b c f [(t & ? & ?)|(p & ? & ? & Hno)]%Hpend.
    + left. exists t. by rewrite <- Hperm.
    + right. exists p. split_and!; [done..|].
      intros t. rewrite <- Hperm. auto.
  - by rewrite <- Hperm.
  - by rewrite <- Hperm.
  - intros t. rewrite <- Hperm. auto.
  - intros t. rewrite <- Hperm. auto.
Qed.

(** A timer whose id is not pending can leave the list. *)
Lemma Inv_drop_timer t ts st :
  Inv (t :: ts) st → Map_get (pending (tmap t) st) (tcid t) = None →
  Inv ts st.
Proof.
  intros [Hkeys Hpend Hent Htk Htp Htb Hts Hsb Hun Honce Hshape] Hnone.
  split; try done.
  - intros b c f Hget.
    destruct (Hpend b c f Hget)
      as [(t' & [->|Ht']%elem_of_cons & Hb & Hc & ?)|(p & ? & ? & Hno)].
    + subst b c. congruence.
    + left. by exists t'.
    + right. exists p. split_and!; [done..|].
      intros t' Ht'. apply Hno. by apply list_elem_of_further.
  - by apply NoDup_cons in Htk as [_ ?].
  - by apply NoDup_cons in Htp as [_ ?].
  - intros t' Ht'. apply Htb. by apply list_elem_of_further.
  - intros t' Ht'. apply Hts. by apply list_elem_of_further.
Qed.

(** A consumer or a timer callback deletes an entry and calls the stored
    [resolve], or the [reject] of the same promise, in one go. *)
Lemma Inv_settle ts st b c p s :
  Inv ts st → Map_get (pending b st) c = Some (ResolveOf p) →
  settle_promise s = p →
  ((∃ env, s = Resolve p (AEnvelope env))
   ∨ s = Reject p (AError "RPC timeout")) →
  Inv ts (with_pending b (Map_delete (pending b st) c) (with_settle s st)).
Proof.
  intros HI Hget Hs Hsh.
  pose proof (Inv_entry_bound _ _ _ _ _ HI Hget) as Hbound.
  destruct HI as [Hkeys Hpend Hent Htk Htp Htb Hts Hsb Hun Honce Hshape].
  set (st' := with_pending _ _ _).
  assert (settlements st' = settlements st ++ [s]) as Hsettle
    by (unfold st'; by rewrite settlements_with_pending).
  assert (∀ q, outcomes q st' =
               outcomes q st ++ if decide (p = q) then [s] else [])
    as Ho.
  { intros q. unfold st'.
    rewrite outcomes_with_pending, outcomes_with_settle. by rewrite Hs. }
  assert (∀ q, failed q st' ↔ failed q st) as Hf.
  { intros q. rewrite (failed_app q st st' s) by done.
    split; [|by left]. intros [?|[error ->]]; [done|].
    by destruct Hsh as [[env [=]]|[=]]. }
  assert (∀ b' c' f', Map_get (pending b' st') c' = Some f' →
            (b', c') ≠ (b, c) ∧ Map_get (pending b' st) c' = Some f') as Hold.
  { intros b' c' f'. unfold st'.
    rewrite pending_with_pending, pending_with_settle.
    case_decide as Hbb; [subst b'|].
    - intros [? ?]%Map_get_delete_Some; [|done]. split; [congruence|done].
    - intros ?. split; [congruence|done]. }
  split.
  - intros b'. unfold st'. rewrite pending_with_pending, pending_with_settle.
    case_decide; [|done]. by apply Map_delete_keys_NoDup.
  - intros b' c' f' [Hne Hget']%Hold.
    destruct (Hpend b' c' f' Hget')
      as [(t' & Ht' & Hb' & Hc' & -> & Hout')|(q & -> & Hq & Hno)].
    + left. exists t'. split_and!; try done.
      rewrite Ho, Hout'. case_decide as Hp; [|done].
      destruct Hne. rewrite Hp in Hget.
      destruct (Hent _ _ _ _ _ Hget Hget') as [-> ->]. done.
    + right. exists q. by rewrite Hf.
  - intros b1 c1 b2 c2 q [_ H1]%Hold [_ H2]%Hold. by eapply Hent.
  - done.
  - done.
  - intros t'. unfold st'. rewrite nextPromise_with_pending. simpl. auto.
  - intros t' Ht'. rewrite Hf. auto.
  - intros s'. unfold st' at 2. rewrite nextPromise_with_pending. simpl.
    rewrite Hsettle.
    intros [?|Hs'%list_elem_of_singleton]%elem_of_app; [auto|].
    subst s'. by rewrite Hs.
  - intros q. unfold st' at 1. rewrite nextPromise_with_pending. simpl.
    rewrite Ho. intros Hq [Hnil Hne]%app_eq_nil.
    destruct (Hun q Hq Hnil) as (b' & c' & Hget').
    exists b', c'. unfold st'.
    rewrite pending_with_pending, pending_with_settle.
    destruct (decide (b = b')) as [<-|Hbb]; [|done].
    rewrite Map_get_delete by done.
    destruct (decide (c = c')) as [<-|Hcc]; [|done].
    rewrite Hget in Hget'. injection Hget' as <-.
    by rewrite decide_True in Hne.
  - intros q. rewrite Hf, Ho. intros Hnf. case_decide as Hp.
    + subst q.
      destruct (Hpend b c _ Hget)
        as [(t & _ & _ & _ & [= ->] & Hout)|(q & [= <-] & Hq & _)];
        [|done].
      rewrite Hout. simpl. lia.
    + rewrite app_nil_r. by apply Honce.
  - intros s'. rewrite Hsettle.
    intros [?|Hs'%list_elem_of_singleton]%elem_of_app; [auto|].
    subst s'. destruct Hsh as [[env ->]| ->]; eauto.
Qed.

Lemma Inv_timeout t ts st : Inv (t :: ts) st → Inv ts (timeout t st).
Proof.
  intros HI. unfold timeout.
  destruct (Map_has _ _) eqn:Hhas.
  - apply Map_has_get in Hhas as [f Hget].
    assert (f = ResolveOf (tpromise t)) as ->.
    { destruct (inv_pending _ _ HI _ _ _ Hget)
        as [(t' & Ht' & Hb & Hc & -> & _)|(q & _ & _ & Hno)].
      - f_equal. f_equal. eapply (NoDup_fmap_elem_inj timer_key);
          [apply HI | done | apply list_elem_of_here |].
        unfold timer_key. congruence.
      - by destruct (Hno t (list_elem_of_here _ _)). }
    rewrite with_settle_with_pending.
    apply (Inv_drop_timer t).
    + apply (Inv_settle _ _ _ _ (tpromise t)); [done..|by right].
    + rewrite pending_with_pending, pending_with_settle, decide_True by done.
      rewrite Map_get_delete, decide_True by (done || apply HI). done.
  - apply (Inv_drop_timer t); [done|]. by apply Map_has_false.
Qed.

Lemma Inv_foldl_timeout due rest st :
  Inv (due ++ rest) st → Inv rest (foldl (λ s t, timeout t s) st due).
Proof.
  revert st. induction due as [|t due IH]; intros st; simpl; [done|].
  intros HI. by apply IH, Inv_timeout.
Qed.

Lemma Inv_run_timers st :
  Inv (timers st) st → Inv (timers (run_timers st)) (run_timers st).
Proof.
  intros HI. rewrite run_timers_timers. unfold run_timers.
  apply Inv_foldl_timeout.
  eapply Inv_perm; [symmetry; apply filter_app_complement|].
  eapply Inv_same; [..|done]; try done.
Qed.
Lemma token_free_spec b c st :
  token_free b c st = true ↔
  Map_get (pending b st) c = None ∧ ∀ t, t ∈ timers st → timer_key t ≠ (b, c).
Proof.
  unfold token_free.
  rewrite andb_true_iff, negb_true_iff, Map_has_false, forallb_forall.
  apply and_iff_compat_l. split.
  - intros Hall t Ht%list_elem_of_In Hkey.
    specialize (Hall t Ht). apply negb_true_iff, bool_decide_eq_false in Hall.
    apply Hall. by injection Hkey.
  - intros Hall t Ht%list_elem_of_In.
    apply negb_true_iff, bool_decide_eq_false. intros [Hb Hc].
    apply (Hall t Ht). unfold timer_key. congruence.
Qed.

(** What the two ways of [sendRpc] to end have in common: a new promise
    and its [resolve] under a key that was free. *)
Lemma Inv_register st st' b c :
  Inv (timers st) st →
  Map_get (pending b st) c = None →
  nextPromise st' = S (nextPromise st) →
  (∀ b', pending b' st' =
     if decide (b = b')
     then Map_set (pending b st) c (ResolveOf (nextPromise st))
     else pending b' st) →
  (∀ b', NoDup (pending b' st').*1)
  ∧ (∀ b1 c1 f, Map_get (pending b1 st') c1 = Some f →
       (b1 = b ∧ c1 = c ∧ f = ResolveOf (nextPromise st))
       ∨ ((b1, c1) ≠ (b, c) ∧ Map_get (pending b1 st) c1 = Some f))
  ∧ (∀ b1 c1 b2 c2 p,
       Map_get (pending b1 st') c1 = Some (ResolveOf p) →
       Map_get (pending b2 st') c2 = Some (ResolveOf p) →
       b1 = b2 ∧ c1 = c2)
  ∧ (∀ b1 c1 f, Map_get (pending b1 st) c1 = Some f →
       Map_get (pending b1 st') c1 = Some f)
  ∧ Map_get (pending b st') c = Some (ResolveOf (nextPromise st)).
Proof.
  intros HI Hnone Hnext Hp.
  assert (∀ b1 c1 f, Map_get (pending b1 st') c1 = Some f →
            (b1 = b ∧ c1 = c ∧ f = ResolveOf (nextPromise st))
            ∨ ((b1, c1) ≠ (b, c) ∧ Map_get (pending b1 st) c1 = Some f))
    as Hcases.
  { intros b1 c1 f. rewrite Hp.
    destruct (decide (b = b1)) as [<-|Hb].
    - rewrite Map_get_set. destruct (decide (c = c1)) as [<-|Hc].
      + intros [= <-]. by left.
      + intros ?. right. split; [congruence|done].
    - intros ?. right. split; [congruence|done]. }
  split_and!.
  - intros b'. rewrite Hp. case_decide; [|apply HI].
    apply Map_set_keys_NoDup, HI.
  - done.
  - intros b1 c1 b2 c2 p H1 H2.
    destruct (Hcases _ _ _ H1) as [(Hb1 & Hc1 & Hp1)|[_ H1']];
      destruct (Hcases _ _ _ H2) as [(Hb2 & Hc2 & Hp2)|[_ H2']].
    + by subst.
    + apply (Inv_entry_bound _ _ _ _ _ HI) in H2'.
      injection Hp1 as ->. lia.
    + apply (Inv_entry_bound _ _ _ _ _ HI) in H1'.
      injection Hp2 as ->. lia.
    + by eapply (inv_entries _ _ HI).
  - intros b1 c1 f Hget. rewrite Hp. case_decide as Hb; [subst b1|done].
    rewrite Map_get_set. case_decide; [congruence|done].
  - by rewrite Hp, decide_True, Map_get_set, decide_True.
Qed.

Lemma Inv_Call st b command payload rnd st' cpl :
  Inv (timers st) st →
  token_free b (generateUuid rnd (now st)) st = true →
  step st (Call b command payload rnd) = (st', cpl) →
  Inv (timers st') st'.
Proof.
  intros HI [Hnone Hfree]%token_free_spec.
  destruct (step_Call st b command payload rnd)
    as (st1 & -> & _ & Hnext & Hp & Htimers & Hsettle).
  intros [= <- <-].
  set (c := generateUuid rnd (now st)) in *.
  set (tnew := {| deadline := now st + timeoutMs; tmap := b; tcid := c;
                  tpromise := nextPromise st |}) in *.
  destruct (Inv_register st st1 b c HI Hnone Hnext Hp)
    as (Hkeys1 & Hcases & Hent1 & Hkeep & Hnew).
  destruct HI as [Hkeys Hpend Hent Htk Htp Htb Hts Hsb Hun Honce Hshape].
  assert (∀ p, outcomes p st1 = outcomes p st) as Ho
    by (intros p; unfold outcomes; by rewrite Hsettle).
  assert (∀ p, failed p st1 ↔ failed p st) as Hf
    by (intros p; by apply failed_same).
  rewrite Htimers. split.
  - done.
  - intros b' c' f [(-> & -> & ->)|[Hne Hget]]%Hcases.
    + left. exists tnew. rewrite Ho.
      split_and!; try done; [apply elem_of_app; right; apply list_elem_of_here|].
      by apply outcomes_nil_bound.
    + destruct (Hpend _ _ _ Hget) as [(t & ? & ?)|(p & ? & ? & Hno)].
      * left. exists t. rewrite Ho.
        split; [apply elem_of_app; by left | done].
      * right. exists p. rewrite Hf. split_and!; [done..|].
        intros t [Ht|Ht%list_elem_of_singleton]%elem_of_app; [auto|].
        subst t. unfold timer_key. simpl. congruence.
  - done.
  - rewrite fmap_app. apply NoDup_app. split_and!; [done| |apply NoDup_singleton].
    intros k (t & -> & Ht)%list_elem_of_fmap Hk%list_elem_of_singleton.
    by apply (Hfree t).
  - rewrite fmap_app. apply NoDup_app. split_and!; [done| |apply NoDup_singleton].
    intros p (t & -> & Ht)%list_elem_of_fmap Hk%list_elem_of_singleton.
    apply Htb in Ht. simpl in Hk. lia.
  - intros t. rewrite Hnext.
    intros [Ht%Htb|Ht%list_elem_of_singleton]%elem_of_app; [lia|].
    subst t. simpl. lia.
  - intros t. rewrite Hf.
    intros [Ht|Ht%list_elem_of_singleton]%elem_of_app; [auto|].
    subst t. simpl. intros Hfail%(failed_bound _ _ Hsb). lia.
  - intros s. rewrite Hsettle, Hnext. intros ?%Hsb. lia.
  - intros p. rewrite Hnext, Ho. intros Hlt Hnil.
    destruct (decide (p = nextPromise st)) as [->|Hne].
    + by exists b, c.
    + destruct (Hun p) as (b' & c' & Hget); [lia|done|].
      exists b', c'. by apply Hkeep.
  - intros p. rewrite Hf, Ho. auto.
  - intros s. rewrite Hsettle. auto.
Qed.

Lemma Inv_CallThrows st b command payload rnd error st' cpl :
  Inv (timers st) st →
  token_free b (generateUuid rnd (now st)) st = true →
  step st (CallThrows b command payload rnd error) = (st', cpl) →
  Inv (timers st') st'.
Proof.
  intros HI [Hnone Hfree]%token_free_spec.
  destruct (step_CallThrows st b command payload rnd error)
    as (st1 & -> & _ & Hnext & Hp & Htimers & Hsettle).
  intros [= <- <-].
  set (c := generateUuid rnd (now st)) in *.
  set (n := nextPromise st) in *.
  destruct (Inv_register st st1 b c HI Hnone Hnext Hp)
    as (Hkeys1 & Hcases & Hent1 & Hkeep & Hnew).
  destruct HI as [Hkeys Hpend Hent Htk Htp Htb Hts Hsb Hun Honce Hshape].
  assert (∀ p, outcomes p st1 =
               outcomes p st
               ++ if decide (n = p) then [Reject n (AThrown error)] else [])
    as Ho.
  { intros p. unfold outcomes. rewrite Hsettle, filter_app, filter_cons.
    simpl. by case_decide. }
  assert (∀ p, failed p st1 ↔ failed p st ∨ p = n) as Hf.
  { intros p. rewrite (failed_app p st st1 _ Hsettle).
    split; (intros [?|Hn]; [by left|right]).
    - by destruct Hn as [e [= ->]].
    - subst p. eauto. }
  assert (outcomes n st = []) as Hnil by by apply outcomes_nil_bound.
  rewrite Htimers. split.
  - done.
  - intros b' c' f [(-> & -> & ->)|[Hne Hget]]%Hcases.
    + right. exists n. rewrite Hf. split_and!; [done|by right|done].
    + destruct (Hpend _ _ _ Hget) as [(t & Ht & ? & ? & ? & Hout)|(p & ? & ? & Hno)].
      * left. exists t. rewrite Ho, Hout.
        rewrite decide_False by (apply Htb in Ht; unfold n; lia). done.
      * right. exists p. rewrite Hf. split_and!; [done|by left|done].
  - done.
  - done.
  - done.
  - intros t. rewrite Hnext. intros Ht%Htb. lia.
  - intros t Ht. rewrite Hf. intros [?|Hn]; [by apply (Hts t)|].
    apply Htb in Ht. unfold n in Hn. lia.
  - intros s. rewrite Hsettle, Hnext.
    intros [?%Hsb|Hs%list_elem_of_singleton]%elem_of_app; [lia|].
    subst s. simpl. unfold n. lia.
  - intros p. rewrite Hnext, Ho. intros Hlt [Hnil' Hne]%app_eq_nil.
    case_decide as Hpn; [done|].
    destruct (Hun p) as (b' & c' & Hget); [unfold n in Hpn; lia|done|].
    exists b', c'. by apply Hkeep.
  - intros p. rewrite Hf, Ho. intros Hnf.
    rewrite decide_False by (intros <-; apply Hnf; by right).
    rewrite app_nil_r. apply Honce. intros ?. apply Hnf. by left.
  - intros s. rewrite Hsettle.
    intros [?|Hs%list_elem_of_singleton]%elem_of_app; [auto|].
    subst s. right. right. eauto.
Qed.

Lemma Inv_Deliver st b msg st' cpl :
  Inv (timers st) st →
  step st (Deliver b msg) = (st', cpl) →
  Inv (timers st') st'.
Proof.
  intros HI. simpl. unfold consume.
  destruct (correlationId msg) as [c|]; [|by intros [= <- <-]].
  destruct (Map_get _ c) as [resolver|] eqn:Hget; [|by intros [= <- <-]].
  destruct (JSON_parse _) as [v|]; [|by intros [= <- <-]].
  intros [= <- <-].
  rewrite timers_with_pending, pending_with_settle. simpl.
  destruct (Inv_entry_resolve _ _ _ _ _ HI Hget) as [p ->].
  apply (Inv_settle _ _ _ _ p); [done..|]. simpl. eauto.
Qed.

Lemma Inv_step st e :
  Inv (timers st) st → fresh st [e] = true →
  Inv (timers (step st e).1) (step st e).1.
Proof.
  intros HI.
  destruct e as [b command payload rnd|b command payload rnd error|b msg|dt|].
  - intros Hfree%fresh_Call.
    destruct (step st (Call b command payload rnd)) as [s c] eqn:Hstep.
    by eapply Inv_Call.
  - intros Hfree%fresh_CallThrows.
    destruct (step st (CallThrows b command payload rnd error))
      as [s c] eqn:Hstep.
    by eapply Inv_CallThrows.
  - intros _. destruct (step st (Deliver b msg)) as [s c] eqn:Hstep.
    by eapply Inv_Deliver.
  - intros _. simpl. by eapply Inv_same; [..|done].
  - intros _. by apply Inv_run_timers.
Qed.

Lemma Inv_run st evs :
  Inv (timers st) st → fresh st evs = true →
  Inv (timers (run st evs)) (run st evs).
Proof.
  revert st. induction evs as [|e evs IH]; intros st HI; [done|].
  rewrite fresh_cons. intros [He Hf]%andb_true_iff.
  simpl. apply IH; [|done]. by apply Inv_step.
Qed.

(** Every state a run from [init] reaches satisfies both invariants. *)
Lemma reach_Inv evs :
  fresh init evs = true → Inv (timers (run init evs)) (run init evs).
Proof. apply Inv_run, Inv_init. Qed.

Lemma reach_Basic evs : Basic (run init evs).
Proof. apply Basic_run, Basic_init. Qed.

(** ** One call among the others *)

(** What an event adds to the record of settlements. *)
Lemma step_settles st e st' cpl :
  step st e = (st', cpl) →
  ∃ new, settlements st' = settlements st ++ new
    ∧ ∀ s, s ∈ new →
        match e with
        | Deliver b msg =>
            ∃ c f v, correlationId msg = Some c
              ∧ Map_get (pending b st) c = Some f
              ∧ JSON_parse (content msg) = Some v
              ∧ s = invoke f (AEnvelope v)
        | Timers => ∃ q, s = Reject q (AError "RPC timeout")
        | CallThrows _ _ _ _ error =>
            s = Reject (nextPromise st) (AThrown error)
        | _ => False
        end.
Proof.
  destruct e as [b command payload rnd|b command payload rnd error|b msg|dt|].
  - destruct (step_Call st b command payload rnd)
      as (st1 & -> & _ & _ & _ & _ & Hsettle).
    intros [= <- <-]. exists []. rewrite app_nil_r.
    split; [done | by intros s ?%elem_of_nil].
  - destruct (step_CallThrows st b command payload rnd error)
      as (st1 & -> & _ & _ & _ & _ & Hsettle).
    intros [= <- <-]. eexists. split; [done|].
    by intros s ?%list_elem_of_singleton.
  - simpl. unfold consume.
    destruct (correlationId msg) as [c|] eqn:Hc.
    2:{ intros [= <- <-]. exists []. rewrite app_nil_r.
        split; [done | by intros s ?%elem_of_nil]. }
    destruct (Map_get _ c) as [resolver|] eqn:Hget.
    2:{ intros [= <- <-]. exists []. rewrite app_nil_r.
        split; [done | by intros s ?%elem_of_nil]. }
    destruct (JSON_parse _) as [v|] eqn:Hparse.
    2:{ intros [= <- <-]. exists []. rewrite app_nil_r.
        split; [done | by intros s ?%elem_of_nil]. }
    intros [= <- <-]. rewrite settlements_with_pending. simpl.
    eexists. split; [done|].
    intros s ->%list_elem_of_singleton. by exists c, resolver, v.
  - simpl. intros [= <- <-]. exists []. rewrite app_nil_r.
    split; [done | by intros s ?%elem_of_nil].
  - simpl. intros [= <- <-]. unfold run_timers.
    destruct (foldl_timeout_settlements
                (filter (λ t, (deadline t ≤ now st)%N) (timers st))
                (with_timers
                   (filter (λ t, ¬ (deadline t ≤ now st)%N) (timers st)) st))
      as (new & Hnew & Hrej).
    exists new. by split.
Qed.

Lemma settled_stays p s st :
  settlements s `prefix_of` settlements st →
  outcomes p s ≠ [] → length (outcomes p st) ≤ 1 →
  outcomes p st = outcomes p s ∧ length (outcomes p st) = 1.
Proof.
  intros Hpre%(outcomes_prefix p) Hne Hle.
  assert (length (outcomes p s) = 1) as Hlen.
  { apply prefix_length in Hpre. destruct (outcomes p s); [done|simpl in *; lia]. }
  split; [|apply prefix_length in Hpre; lia].
  symmetry. apply prefix_length_eq; [done|lia].
Qed.

(** An event makes a promise one that its executor rejected only if it
    is the call that creates the promise. *)
Lemma failed_step p st e st' cpl :
  step st e = (st', cpl) → failed p st' →
  failed p st ∨ p = nextPromise st.
Proof.
  intros Hstep [error Hin].
  destruct (step_settles _ _ _ _ Hstep) as (new & Hnew & Hkind).
  rewrite Hnew in Hin. apply elem_of_app in Hin as [Hin|Hin].
  - left. by exists error.
  - specialize (Hkind _ Hin).
    destruct e as [| |b msg| |]; [done| |..|done|].
    + injection Hkind as ->. by right.
    + destruct Hkind as (c & f & v & _ & _ & _ & Hinv). by destruct f.
    + by destruct Hkind as [q [=]].
Qed.

Lemma issued_step t st e st' cpl :
  issued t st → step st e = (st', cpl) → issued t st'.
Proof.
  intros (Hlt & Hnf & Hown) Hstep.
  pose proof (step_mono _ _ _ _ Hstep) as (Hn & _ & _ & Hold & _).
  split_and!; [lia| |].
  - intros [?|?]%(failed_step _ _ _ _ _ Hstep); [done|lia].
  - intros t' Ht' Hp. apply Hown; [|done]. apply Hold; [done|lia].
Qed.

Lemma issued_run t st evs : issued t st → issued t (run st evs).
Proof.
  revert st. induction evs as [|e evs IH]; intros st Hi; simpl; [done|].
  apply IH. destruct (step st e) as [s c] eqn:Hstep.
  by apply (issued_step t) in Hstep.
Qed.

(** While the promise of an issued call is not settled, its entry is in
    its pending map and its timer is armed. *)
Lemma issued_pending t st b c :
  Inv (timers st) st → issued t st →
  Map_get (pending b st) c = Some (ResolveOf (tpromise t)) →
  t ∈ timers st ∧ b = tmap t ∧ c = tcid t.
Proof.
  intros HI (_ & Hnf & Hown) Hget.
  destruct (inv_pending _ _ HI _ _ _ Hget)
    as [(t' & Ht' & Hb & Hc & [= Hp] & _)|(q & [= <-] & Hq & _)]; [|done].
  assert (t' = t) as -> by auto. done.
Qed.

Lemma issued_entry_unsettled t st b c :
  Inv (timers st) st → issued t st →
  Map_get (pending b st) c = Some (ResolveOf (tpromise t)) →
  outcomes (tpromise t) st = [].
Proof.
  intros HI (_ & Hnf & _) Hget.
  destruct (inv_pending _ _ HI _ _ _ Hget)
    as [(t' & _ & _ & _ & [= ->] & ?)|(q & [= <-] & Hq & _)]; done.
Qed.


(** The state right after a call, in a run with fresh ids. *)
Lemma call_made evs0 b command payload rnd :
  let st0 := run init evs0 in
  let st1 := (step st0 (Call b command payload rnd)).1 in
  fresh init (evs0 ++ [Call b command payload rnd]) = true →
  Inv (timers st1) st1
  ∧ issued (timer_of_call b rnd st0) st1
  ∧ outcomes (nextPromise st0) st1 = []
  ∧ timer_of_call b rnd st0 ∈ timers st1
  ∧ Map_get (pending b st1) (generateUuid rnd (now st0))
    = Some (ResolveOf (nextPromise st0)).
Proof.
  intros st0 st1. rewrite fresh_app.
  intros [Hf0 Hfree]%andb_true_iff.
  pose proof (reach_Inv _ Hf0) as HI0. fold st0 in HI0, Hfree.
  pose proof (Inv_step _ _ HI0 Hfree) as HI1. fold st1 in HI1.
  apply fresh_Call in Hfree.
  destruct (step_Call st0 b command payload rnd)
    as (s & Hstep & Hnow & Hnext & Hp & Htimers & Hsettle).
  assert (st1 = s) as -> by (unfold st1; by rewrite Hstep).
  split_and!; try done.
  - split_and!; [simpl; lia| |].
    + simpl. rewrite (failed_same _ st0 s Hsettle).
      intros Hfail%(failed_bound _ _ (inv_settle_bound _ _ HI0)). lia.
    + rewrite Htimers.
      intros t' [Ht'|Ht']%elem_of_app Hpt'; simpl in Hpt'.
      * apply (inv_timer_bound _ _ HI0) in Ht'. lia.
      * by apply list_elem_of_singleton in Ht'.
  - unfold outcomes. rewrite Hsettle.
    apply outcomes_nil_bound; [apply HI0 | done].
  - rewrite Htimers. apply elem_of_app. right. apply list_elem_of_here.
  - by rewrite Hp, decide_True, Map_get_set, decide_True.
Qed.



(** A call is resolved only by a reply that carries its correlation id,
    and then with what that reply parses to. *)
Lemma resolve_source t evs st v :
  Inv (timers st) st → issued t st → fresh st evs = true →
  Resolve (tpromise t) v ∈ settlements (run st evs) →
  Resolve (tpromise t) v ∈ settlements st
  ∨ ∃ msg env, Deliver (tmap t) msg ∈ evs
      ∧ correlationId msg = Some (tcid t)
      ∧ JSON_parse (content msg) = Some env
      ∧ v = AEnvelope env.
Proof.
  revert st. induction evs as [|e evs IH]; intros st HI Hi Hf Hin.
  - by left.
  - rewrite fresh_cons in Hf. apply andb_true_iff in Hf as [Hfe Hfs].
    pose proof (Inv_step _ _ HI Hfe) as HI'.
    destruct (step st e) as [s cpl] eqn:Hstep.
    pose proof (issued_step _ _ _ _ _ Hi Hstep) as Hi'.
    simpl in Hin. rewrite Hstep in Hin. simpl in HI', Hfs, Hin.
    destruct (IH s HI' Hi' Hfs Hin) as [Hs|(msg & env & Hm & ?)].
    2:{ right. exists msg, env. split; [by apply list_elem_of_further|done]. }
    destruct (step_settles _ _ _ _ Hstep) as (new & Hnew & Hkind).
    rewrite Hnew in Hs. apply elem_of_app in Hs as [Hs|Hs]; [by left|].
    specialize (Hkind _ Hs). right.
    destruct e as [| | b msg | |]; [done|done| |done|by destruct Hkind].
    destruct Hkind as (c & f & env & Hc & Hget & Hparse & Hinv).
    destruct f as [q|q]; [|done]. injection Hinv as <- ->.
    destruct (issued_pending _ _ _ _ HI Hi Hget) as (_ & -> & ->).
    exists msg, env. split; [apply list_elem_of_here | done].
Qed.

Lemma foldl_timeout_get b c due st :
  (∀ b', NoDup (pending b' st).*1) →
  (∀ t, t ∈ due → timer_key t ≠ (b, c)) →
  Map_get (pending b (foldl (λ s t, timeout t s) st due)) c
  = Map_get (pending b st) c.
Proof.
  revert st. induction due as [|t due IH]; intros st Hnd Hkeys; simpl; [done|].
  rewrite IH.
  - rewrite timeout_pending. case_decide as Hb; [|done].
    rewrite Map_get_delete by done. case_decide as Hc; [|done].
    destruct (Hkeys t); [apply list_elem_of_here|]. unfold timer_key. congruence.
  - intros b'. rewrite timeout_pending. case_decide; [|done].
    by apply Map_delete_keys_NoDup.
  - intros t' Ht'. apply Hkeys. by apply list_elem_of_further.
Qed.

(** A call stays pending as long as no reply for it is delivered and its
    timer is not due. *)
Lemma still_pending_step t f st e :
  Inv (timers st) st → t ∈ timers st →
  Map_get (pending (tmap t) st) (tcid t) = Some f →
  fresh st [e] = true →
  ¬ reply_for (tmap t) (tcid t) e →
  (now (step st e).1 < deadline t)%N →
  t ∈ timers (step st e).1
  ∧ Map_get (pending (tmap t) (step st e).1) (tcid t) = Some f.
Proof.
  intros HI Ht Hget Hf Hnot Hnow.
  destruct (step st e) as [st' cpl] eqn:Hstep. simpl in Hnow |- *.
  pose proof (step_mono _ _ _ _ Hstep) as (_ & Hclock & _ & _ & Hkeep).
  split; [by apply Hkeep|].
  destruct e as [b command payload rnd|b command payload rnd error|b msg|dt|].
  - apply fresh_Call, token_free_spec in Hf as [Hnone _].
    destruct (step_Call st b command payload rnd)
      as (st1 & Hstep' & _ & _ & Hp & _ & _).
    rewrite Hstep in Hstep'. injection Hstep' as <- _.
    rewrite Hp. case_decide as Hb; [subst b|done].
    rewrite Map_get_set. case_decide; [congruence|done].
  - apply fresh_CallThrows, token_free_spec in Hf as [Hnone _].
    destruct (step_CallThrows st b command payload rnd error)
      as (st1 & Hstep' & _ & _ & Hp & _ & _).
    rewrite Hstep in Hstep'. injection Hstep' as <- _.
    rewrite Hp. case_decide as Hb; [subst b|done].
    rewrite Map_get_set. case_decide; [congruence|done].
  - simpl in Hstep, Hnot. unfold consume in Hstep.
    destruct (correlationId msg) as [c|] eqn:Hc; [|by injection Hstep as <-].
    destruct (Map_get _ c) as [resolver|]; [|by injection Hstep as <-].
    destruct (JSON_parse _) as [v|]; [|by injection Hstep as <-].
    injection Hstep as <- _.
    rewrite pending_with_pending, !pending_with_settle.
    case_decide as Hb; [subst b|done].
    rewrite Map_get_delete by apply HI.
    case_decide; [|done]. subst c. by destruct Hnot.
  - by injection Hstep as <-.
  - injection Hstep as <- _. unfold run_timers in *.
    rewrite foldl_timeout_now in Hnow. simpl in Hnow.
    rewrite foldl_timeout_get.
    + by rewrite pending_with_timers.
    + intros b'. rewrite pending_with_timers. apply HI.
    + intros t' [Hdue Ht']%list_elem_of_filter Hkey.
      assert (t' = t) as -> by by eapply (NoDup_fmap_elem_inj timer_key);
        [apply HI|..].
      lia.
Qed.

Lemma still_pending t f evs st :
  Inv (timers st) st → t ∈ timers st →
  Map_get (pending (tmap t) st) (tcid t) = Some f →
  fresh st evs = true →
  Forall (λ e, ¬ reply_for (tmap t) (tcid t) e) evs →
  (now (run st evs) < deadline t)%N →
  t ∈ timers (run st evs)
  ∧ Map_get (pending (tmap t) (run st evs)) (tcid t) = Some f.
Proof.
  revert st. induction evs as [|e evs IH]; intros st HI Ht Hget Hf Hall Hnow.
  - done.
  - rewrite fresh_cons in Hf. apply andb_true_iff in Hf as [Hfe Hfs].
    apply Forall_cons in Hall as [He Hall]. simpl in Hnow |- *.
    pose proof (run_mono (step st e).1 evs) as (_ & Hclock & _).
    destruct (still_pending_step t f st e) as [Ht' Hget']; [done..|lia|].
    apply IH; try done. by apply Inv_step.
Qed.

Lemma call_then evs0 e evs1 :
  run init (evs0 ++ e :: evs1) = run (step (run init evs0) e).1 evs1
  ∧ fresh init (evs0 ++ e :: evs1)
    = fresh init (evs0 ++ [e]) && fresh (step (run init evs0) e).1 evs1.
Proof.
  rewrite run_app, !fresh_app. simpl. by rewrite !andb_true_r, andb_assoc.
Qed.

Lemma Map_all_None_nil {V} (m : list (string * V)) :
  (∀ k, Map_get m k = None) → m = [].
Proof.
  destruct m as [|[k v] m]; [done|]. intros Hall.
  specialize (Hall k). simpl in Hall. by rewrite decide_True in Hall.
Qed.


(** ** The claims about [sendRpc] and the reply consumers *)


(** C2.  Take any run with fresh correlation ids and any call in it,
    whatever other calls to the same backend are pending at the same time
    and in whatever order the replies come.  The call is resolved only
    with the envelope of a reply that was delivered to its backend's
    consumer with the call's own correlation id; and the first such reply
    with a body that parses, delivered before the call's deadline, resolves
    it with exactly that reply's envelope, which stays the call's only
    outcome. *)
Theorem replies_matched_by_token evs0 b command payload rnd evs1 :
  let st0 := run init evs0 in
  let p := nextPromise st0 in
  let c := generateUuid rnd (now st0) in
  let st := run init (evs0 ++ Call b command payload rnd :: evs1) in
  fresh init (evs0 ++ Call b command payload rnd :: evs1) = true →
  (∀ v, Resolve p v ∈ settlements st →
     ∃ msg env, Deliver b msg ∈ evs1 ∧ correlationId msg = Some c
       ∧ JSON_parse (content msg) = Some env ∧ v = AEnvelope env)
  ∧ (∀ ea msg eb env,
       evs1 = ea ++ Deliver b msg :: eb →
       correlationId msg = Some c →
       JSON_parse (content msg) = Some env →
       Forall (λ e, ¬ reply_for b c e) ea →
       (now (run init (evs0 ++ Call b command payload rnd :: ea))
        < now st0 + timeoutMs)%N →
       outcomes p st = [Resolve p (AEnvelope env)]).
Proof.
  intros st0 p c st Hfresh.
  destruct (call_then evs0 (Call b command payload rnd) evs1) as [Hrun Hf].
  rewrite Hf in Hfresh. apply andb_true_iff in Hfresh as [Hf0 Hf1].
  destruct (call_made _ _ _ _ _ Hf0) as (HI1 & Hi1 & Hout1 & Ht1 & Hget1).
  fold st0 in HI1, Hi1, Hf1, Hrun, Hout1, Ht1, Hget1.
  set (st1 := (step st0 (Call b command payload rnd)).1) in *.
  pose proof (Inv_run _ _ HI1 Hf1) as HI.
  subst st. rewrite Hrun.
  split.
  - intros v Hv.
    destruct (resolve_source (timer_of_call b rnd st0) _ _ v HI1 Hi1 Hf1 Hv)
      as [Hin|?]; [|done].
    assert (Resolve (nextPromise st0) v ∈ outcomes (nextPromise st0) st1)
      as Hin' by by apply list_elem_of_filter.
    rewrite Hout1 in Hin'. by apply elem_of_nil in Hin'.
  - intros ea msg eb env -> Hc Hparse Hnone Hnow. unfold c in Hc, Hnone.
    rewrite (proj1 (call_then evs0 _ ea)) in Hnow. fold st0 st1 in Hnow.
    rewrite fresh_app in Hf1. apply andb_true_iff in Hf1 as [Hfa _].
    pose proof (Inv_run _ _ HI1 Hfa) as HIa.
    destruct (still_pending (timer_of_call b rnd st0) _ _ _
                HI1 Ht1 Hget1 Hfa Hnone Hnow) as [Hta Hgeta].
    simpl in Hgeta.
    rewrite run_app in HI |- *.
    change (run (run st1 ea) (Deliver b msg :: eb))
      with (run (step (run st1 ea) (Deliver b msg)).1 eb) in HI |- *.
    assert (outcomes p (step (run st1 ea) (Deliver b msg)).1
            = [Resolve p (AEnvelope env)]) as Hout2.
    { simpl. unfold consume. rewrite Hc, Hgeta, Hparse. simpl.
      rewrite outcomes_with_pending, outcomes_with_settle. simpl.
      rewrite decide_True by done.
      pose proof (issued_entry_unsettled (timer_of_call b rnd st0) _ _ _
                    HIa (issued_run _ _ ea Hi1) Hgeta) as Hnil.
      simpl in Hnil. unfold p. by rewrite Hnil. }
    pose proof (run_mono (step (run st1 ea) (Deliver b msg)).1 eb)
      as (_ & _ & Hpre & _).
    rewrite <- Hout2. eapply settled_stays; [done | by rewrite Hout2 |].
    apply (inv_once _ _ HI).
    pose proof (issued_run _ _ (ea ++ Deliver b msg :: eb) Hi1)
      as (_ & Hnf & _).
    by rewrite run_app in Hnf.
Qed.

(** C3.  In every state that any run from the initial state reaches, the
    keys of each pending map are pairwise distinct: a correlation id has at
    most one entry.  And in such a state a message whose correlation id is
    missing, or has no entry in the consumer's pending map, is dropped: the
    callback returns normally and leaves the whole state as it was, so no
    promise is settled and what follows runs as if the message had not
    come. *)
Theorem unknown_token_dropped evs b msg :
  let st := run init evs in
  (∀ c, correlationId msg = Some c → Map_has (pending b st) c = false) →
  (∀ b', NoDup (pending b' st).*1)
  ∧ consume JSON_parse b msg st = (st, Normal)
  ∧ ∀ evs', run st (Deliver b msg :: evs') = run st evs'.
Proof.
  intros st Hunknown.
  destruct (reach_Basic evs) as (Hkeys & _). fold st in Hkeys.
  assert (consume JSON_parse b msg st = (st, Normal)) as Hdrop.
  { unfold consume.
    destruct (correlationId msg) as [c|]; [|done].
    specialize (Hunknown c eq_refl). apply Map_has_false in Hunknown.
    by rewrite Hunknown. }
  split_and!; [done..|].
  intros evs'. simpl. by rewrite Hdrop.
Qed.


(** C7, as the code has it.  The consumer callback of a reply queue throws
    in one case only: the message's correlation id has an entry in the
    pending map and the body does not parse; the [SyntaxError] then leaves
    the callback with the state untouched.  A message whose correlation id
    is missing or has no entry is dropped without being parsed, and for a
    body that parses the stored resolver is called with the parsed
    envelope and the callback returns normally. *)
Theorem consume_throws_only_on_pending_malformed st b msg :
  match correlationId msg ≫= Map_get (pending b st) with
  | None => consume JSON_parse b msg st = (st, Normal)
  | Some f =>
      match JSON_parse (content msg) with
      | None => consume JSON_parse b msg st = (st, Throw "SyntaxError")
      | Some v =>
          ∃ st', consume JSON_parse b msg st = (st', Normal)
            ∧ settlements st' = settlements st ++ [invoke f (AEnvelope v)]
      end
  end.
Proof.
  unfold consume. destruct (correlationId msg) as [c|]; simpl; [|done].
  destruct (Map_get (pending b st) c) as [f|]; [|done].
  destruct (JSON_parse (content msg)) as [v|]; [|done].
  eexists. split; [done|]. by rewrite settlements_with_pending.
Qed.


(** ** More about the event loop *)



Lemma Map_delete_comm {V} (m : list (string * V)) k1 k2 :
  Map_delete (Map_delete m k1) k2 = Map_delete (Map_delete m k2) k1.
Proof.
  destruct (decide (k1 = k2)) as [->|Hne]; [done|].
  induction m as [|[k0 v0] m IH]; simpl; [done|].
  repeat (case_decide; simpl; try congruence).
Qed.

Lemma run_invariant (P : State Value → Prop) st evs :
  P st → (∀ s e, P s → P (step s e).1) → P (run st evs).
Proof.
  intros Hst Hstep. revert st Hst.
  induction evs as [|e evs IH]; intros st Hst; simpl; auto.
Qed.

(** The state a delivery leaves, whether or not the callback throws. *)
Lemma consume_state b msg st :
  (consume JSON_parse b msg st).1 =
    match correlationId msg with
    | Some c =>
        match Map_get (pending b st) c, JSON_parse (content msg) with
        | Some f, Some v =>
            with_pending b (Map_delete (pending b st) c)
              (with_settle (invoke f (AEnvelope v)) st)
        | _, _ => st
        end
    | None => st
    end.
Proof.
  unfold consume. destruct (correlationId msg) as [c|]; [|done].
  destruct (Map_get _ c) as [f|]; [|done].
  destruct (JSON_parse _) as [v|]; [|done].
  simpl. by rewrite pending_with_settle.
Qed.


Lemma pending_total_with_pending b m st :
  length (pendingItemRequests (with_pending b m st))
  + length (pendingUserRequests (with_pending b m st))
  + length (pending b st)
  = length (pendingItemRequests st) + length (pendingUserRequests st)
    + length m.
Proof. destruct b; simpl; lia. Qed.






Lemma outbox_with_pending b m st : outbox (with_pending b m st) = outbox st.
Proof. by destruct b. Qed.

Lemma timeout_outbox t st : outbox (timeout t st) = outbox st.
Proof.
  unfold timeout. case_match; [|done]. simpl. apply outbox_with_pending.
Qed.

Lemma foldl_timeout_outbox ts st :
  outbox (foldl (λ s t, timeout t s) st ts) = outbox st.
Proof.
  revert st. induction ts as [|t ts IH]; intros st; simpl; [done|].
  by rewrite IH, timeout_outbox.
Qed.

Lemma step_outbox st e :
  outbox (step st e).1 =
    outbox st ++
      match e with
      | Call b command payload rnd | CallThrows b command payload rnd _ =>
          [{| squeue := match b with
                        | ItemBackend => "item_requests"
                        | UserBackend => "user_requests"
                        end;
              scommand := command; spayload := payload;
              scorrelationId := generateUuid rnd (now st); sreplyTo := b |}]
      | _ => []
      end.
Proof.
  destruct e as [b command payload rnd|b command payload rnd error|b msg|dt|].
  - by destruct b.
  - by destruct b.
  - change (step st (Deliver b msg)) with (consume JSON_parse b msg st).
    rewrite consume_state, app_nil_r.
    destruct (correlationId msg) as [c|]; [|done].
    destruct (Map_get _ c) as [f|]; [|done].
    destruct (JSON_parse _) as [v|]; [|done].
    by rewrite outbox_with_pending.
  - simpl. by rewrite app_nil_r.
  - simpl. unfold run_timers. by rewrite foldl_timeout_outbox, app_nil_r.
Qed.

Lemma step_nextPromise st e :
  nextPromise (step st e).1 =
    match e with
    | Call _ _ _ _ | CallThrows _ _ _ _ _ => S (nextPromise st)
    | _ => nextPromise st
    end.
Proof.
  destruct e as [b command payload rnd|b command payload rnd error|b msg|dt|].
  - by destruct b.
  - by destruct b.
  - change (step st (Deliver b msg)) with (consume JSON_parse b msg st).
    rewrite consume_state.
    destruct (correlationId msg) as [c|]; [|done].
    destruct (Map_get _ c) as [f|]; [|done].
    destruct (JSON_parse _) as [v|]; [|done].
    by rewrite nextPromise_with_pending.
  - done.
  - simpl. unfold run_timers. by rewrite foldl_timeout_nextPromise.
Qed.

Lemma foldl_timeout_get_Some b c f ts st :
  (∀ b', NoDup (pending b' st).*1) →
  Map_get (pending b (foldl (λ s t, timeout t s) st ts)) c = Some f →
  Map_get (pending b st) c = Some f.
Proof.
  revert st. induction ts as [|t ts IH]; intros st Hnd; simpl; [done|].
  intros Hget%IH.
  - rewrite timeout_pending in Hget. case_decide; [|done].
    by apply Map_get_delete_Some in Hget as [_ ?].
  - intros b'. rewrite timeout_pending. case_decide; [|done].
    by apply Map_delete_keys_NoDup.
Qed.

Lemma step_get_Some st e b c f :
  (∀ b', NoDup (pending b' st).*1) →
  Map_get (pending b (step st e).1) c = Some f →
  Map_get (pending b st) c = Some f
  ∨ ∃ command payload rnd,
      (e = Call b command payload rnd
       ∨ ∃ error, e = CallThrows b command payload rnd error)
      ∧ c = generateUuid rnd (now st).
Proof.
  intros Hnd.
  destruct e as [b0 command payload rnd|b0 command payload rnd error
                |b0 msg|dt|].
  - destruct (step_Call st b0 command payload rnd)
      as (s & -> & _ & _ & Hp & _ & _).
    simpl. rewrite Hp. case_decide as Hb; [subst b0|by left].
    rewrite Map_get_set. case_decide as Hc; [|by left].
    intros _. right. exists command, payload, rnd. split; [by left|done].
  - destruct (step_CallThrows st b0 command payload rnd error)
      as (s & -> & _ & _ & Hp & _ & _).
    simpl. rewrite Hp. case_decide as Hb; [subst b0|by left].
    rewrite Map_get_set. case_decide as Hc; [|by left].
    intros _. right. exists command, payload, rnd. split; [eauto|done].
  - change (step st (Deliver b0 msg)) with (consume JSON_parse b0 msg st).
    rewrite consume_state. intros Hget. left.
    destruct (correlationId msg) as [c0|]; [|done].
    destruct (Map_get _ c0) as [f0|]; [|done].
    destruct (JSON_parse _) as [v|]; [|done].
    rewrite pending_with_pending, pending_with_settle in Hget.
    case_decide; [subst b0|done].
    by apply Map_get_delete_Some in Hget as [_ ?].
  - by left.
  - simpl. unfold run_timers. intros Hget%foldl_timeout_get_Some.
    + left. by rewrite pending_with_timers in Hget.
    + intros b'. by rewrite pending_with_timers.
Qed.

(** X2.  In every state a run reaches, one request has been handed to
    [sendToQueue] per call of [sendRpc] and none otherwise; each went to
    the queue of the backend whose reply queue it names as return address;
    and every entry of a pending map is the correlation id of a request
    that was sent with that map's reply queue as return address. *)
Theorem requests_sent evs :
  let st := run init evs in
  length (outbox st) = nextPromise st
  ∧ (∀ m, m ∈ outbox st →
       squeue m = match sreplyTo m with
                  | ItemBackend => "item_requests"
                  | UserBackend => "user_requests"
                  end)
  ∧ (∀ b c f, Map_get (pending b st) c = Some f →
       ∃ m, m ∈ outbox st ∧ scorrelationId m = c ∧ sreplyTo m = b).
Proof.
  intros st.
  enough (Basic st
          ∧ length (outbox st) = nextPromise st
          ∧ (∀ m, m ∈ outbox st →
               squeue m = match sreplyTo m with
                          | ItemBackend => "item_requests"
                          | UserBackend => "user_requests"
                          end)
          ∧ (∀ b c f, Map_get (pending b st) c = Some f →
               ∃ m, m ∈ outbox st ∧ scorrelationId m = c ∧ sreplyTo m = b))
    as (_ & ?); [done|].
  unfold st. apply run_invariant.
  - split_and!; [apply Basic_init | done | by intros m ?%elem_of_nil
                 | by intros [] c f].
  - intros s e (HB & Hlen & Hq & Hp).
    split_and!.
    + destruct (step s e) as [s' cpl] eqn:Hstep. by eapply Basic_step.
    + rewrite step_outbox, length_app, Hlen, step_nextPromise.
      destruct e; simpl; lia.
    + intros m. rewrite step_outbox. intros [Hm|Hm]%elem_of_app; [auto|].
      destruct e as [b command payload rnd|b command payload rnd error| | |];
        [| |by apply elem_of_nil in Hm..];
        apply list_elem_of_singleton in Hm; by subst m.
    + intros b c f Hget. rewrite step_outbox.
      destruct (step_get_Some _ _ _ _ _ (proj1 HB) Hget)
        as [Hold|(command & payload & rnd & [->|[error ->]] & ->)].
      * destruct (Hp _ _ _ Hold) as (m & Hm & ?).
        exists m. split; [apply elem_of_app; by left | done].
      * eexists. split; [apply elem_of_app; right; apply list_elem_of_here|].
        done.
      * eexists. split; [apply elem_of_app; right; apply list_elem_of_here|].
        done.
Qed.



Lemma with_timers_id st : with_timers (timers st) st = st.
Proof. by destruct st. Qed.

Lemma filter_due_rest n (ts : list Timer) :
  filter (λ t, (deadline t ≤ n)%N) (filter (λ t, ¬ (deadline t ≤ n)%N) ts) = []
  ∧ filter (λ t, ¬ (deadline t ≤ n)%N) (filter (λ t, ¬ (deadline t ≤ n)%N) ts)
    = filter (λ t, ¬ (deadline t ≤ n)%N) ts.
Proof.
  induction ts as [|t ts [IH1 IH2]]; [done|].
  rewrite (filter_cons (λ t, ¬ (deadline t ≤ n)%N) t ts).
  case_decide; [|done].
  rewrite !filter_cons, decide_False, decide_True by done.
  by rewrite IH1, IH2.
Qed.

(** X5.  Running the timers phase a second time while the clock has not
    moved changes nothing: the timers that were due have fired and have
    been taken off the list, the others are still not due. *)
Theorem run_timers_idempotent st : run_timers (run_timers st) = run_timers st.
Proof.
  unfold run_timers at 1.
  rewrite run_timers_timers.
  assert (now (run_timers st) = now st) as ->
    by (unfold run_timers; by rewrite foldl_timeout_now).
  destruct (filter_due_rest (now st) (timers st)) as [-> ->]. simpl.
  rewrite <- run_timers_timers. apply with_timers_id.
Qed.

Lemma consume_twice b msg st :
  (∀ b', NoDup (pending b' st).*1) →
  (consume JSON_parse b msg (consume JSON_parse b msg st).1).1
  = (consume JSON_parse b msg st).1.
Proof.
  intros Hkeys. rewrite (consume_state b msg st).
  destruct (correlationId msg) as [c|] eqn:Hc.
  2:{ by rewrite consume_state, Hc. }
  destruct (Map_get (pending b st) c) as [f|] eqn:Hget.
  2:{ by rewrite consume_state, Hc, Hget. }
  destruct (JSON_parse (content msg)) as [v|] eqn:Hparse.
  2:{ by rewrite consume_state, Hc, Hget, Hparse. }
  rewrite consume_state, Hc.
  rewrite pending_with_pending, pending_with_settle, decide_True by done.
  rewrite Map_get_delete, decide_True by done. done.
Qed.

(** X7.  A reply that the broker delivers a second time changes nothing:
    after the first delivery its correlation id has no entry any more. *)
Theorem redelivered_reply_ignored evs b msg :
  let st := (step (run init evs) (Deliver b msg)).1 in
  (step st (Deliver b msg)).1 = st.
Proof.
  intros st. apply consume_twice. apply reach_Basic.
Qed.

(** A delivery leaves the entries of every other key as they are. *)
Lemma consume_get_other b1 m1 b2 c2 st :
  (∀ b, NoDup (pending b st).*1) →
  (b1, correlationId m1) ≠ (b2, Some c2) →
  Map_get (pending b2 (consume JSON_parse b1 m1 st).1) c2
  = Map_get (pending b2 st) c2.
Proof.
  intros Hkeys Hne. rewrite consume_state.
  destruct (correlationId m1) as [c1|]; [|done].
  destruct (Map_get _ c1) as [f|]; [|done].
  destruct (JSON_parse _) as [v|]; [|done].
  rewrite pending_with_pending, pending_with_settle.
  case_decide as Hb; [subst b2|done].
  rewrite Map_get_delete by done. case_decide; [congruence|done].
Qed.

(** A delivery after another one, for a different key, does what it would
    have done before it. *)
Lemma consume_after_other b1 m1 b2 m2 st :
  (∀ b, NoDup (pending b st).*1) →
  (b1, correlationId m1) ≠ (b2, correlationId m2) →
  (consume JSON_parse b1 m1 (consume JSON_parse b2 m2 st).1).1 =
    match correlationId m1 with
    | Some c1 =>
        match Map_get (pending b1 st) c1, JSON_parse (content m1) with
        | Some f, Some v =>
            with_pending b1
              (Map_delete (pending b1 (consume JSON_parse b2 m2 st).1) c1)
              (with_settle (invoke f (AEnvelope v))
                 (consume JSON_parse b2 m2 st).1)
        | _, _ => (consume JSON_parse b2 m2 st).1
        end
    | None => (consume JSON_parse b2 m2 st).1
    end.
Proof.
  intros Hkeys Hne. rewrite (consume_state b1 m1).
  destruct (correlationId m1) as [c1|] eqn:Hc1; [|done].
  rewrite consume_get_other; [done..|]. congruence.
Qed.

(** X6.  In a run with fresh correlation ids, two replies that are not
    for the same entry can be delivered in either order: the pending
    maps, the armed timers and what is recorded for each promise come out
    the same. *)
Theorem replies_commute evs b1 m1 b2 m2 :
  let st := run init evs in
  let s12 := run st [Deliver b1 m1; Deliver b2 m2] in
  let s21 := run st [Deliver b2 m2; Deliver b1 m1] in
  fresh init evs = true →
  (b1, correlationId m1) ≠ (b2, correlationId m2) →
  (∀ b, pending b s12 = pending b s21)
  ∧ (∀ p, outcomes p s12 = outcomes p s21)
  ∧ timers s12 = timers s21.
Proof.
  intros st s12 s21 Hf Hne.
  pose proof (reach_Inv _ Hf) as HI. fold st in HI.
  pose proof (inv_keys _ _ HI) as Hkeys.
  unfold s12, s21. simpl.
  change (step ?s (Deliver ?b ?m)) with (consume JSON_parse b m s).
  rewrite (consume_after_other b2 m2 b1 m1), (consume_after_other b1 m1 b2 m2)
    by (done || congruence).
  rewrite !consume_state.
  destruct (correlationId m1) as [c1|] eqn:Hc1;
    destruct (correlationId m2) as [c2|] eqn:Hc2; try done.
  destruct (Map_get (pending b1 st) c1) as [f1|] eqn:Hg1;
    destruct (Map_get (pending b2 st) c2) as [f2|] eqn:Hg2;
    destruct (JSON_parse (content m1)) as [v1|];
    destruct (JSON_parse (content m2)) as [v2|]; try done.
  destruct (Inv_entry_resolve _ _ _ _ _ HI Hg1) as [p1 ->].
  destruct (Inv_entry_resolve _ _ _ _ _ HI Hg2) as [p2 ->].
  assert (p1 ≠ p2) as Hp.
  { intros <-. apply Hne.
    by destruct (inv_entries _ _ HI _ _ _ _ _ Hg1 Hg2) as [-> ->]. }
  split_and!.
  - intros b.
    rewrite !pending_with_pending, !pending_with_settle,
      !pending_with_pending, !pending_with_settle.
    destruct b1, b2, b; simpl; try done; apply Map_delete_comm.
  - intros p.
    rewrite !outcomes_with_pending, !outcomes_with_settle,
      !outcomes_with_pending, !outcomes_with_settle.
    rewrite <- !app_assoc. f_equal. simpl.
    destruct (decide (p1 = p)), (decide (p2 = p));
      simpl; [congruence|done..].
  - rewrite !timers_with_pending. simpl. by rewrite !timers_with_pending.
Qed.

(** The entry of a call in which [sendToQueue] threw survives every event
    but a reply that carries its correlation id. *)
Lemma thrown_entry_step b c p st e :
  Inv (timers st) st →
  Map_get (pending b st) c = Some (ResolveOf p) →
  failed p st →
  fresh st [e] = true →
  ¬ reply_for b c e →
  Map_get (pending b (step st e).1) c = Some (ResolveOf p)
  ∧ failed p (step st e).1.
Proof.
  intros HI Hget Hfail Hf Hnot.
  destruct (step st e) as [st' cpl] eqn:Hstep. simpl.
  pose proof (step_mono _ _ _ _ Hstep) as (_ & _ & Hpre & _).
  split; [|by eapply failed_mono].
  destruct e as [b0 command payload rnd|b0 command payload rnd error
                |b0 msg|dt|].
  - apply fresh_Call, token_free_spec in Hf as [Hnone _].
    destruct (step_Call st b0 command payload rnd)
      as (st1 & Hstep' & _ & _ & Hp & _ & _).
    rewrite Hstep in Hstep'. injection Hstep' as <- _.
    rewrite Hp. case_decide as Hb; [subst b0|done].
    rewrite Map_get_set. case_decide; [congruence|done].
  - apply fresh_CallThrows, token_free_spec in Hf as [Hnone _].
    destruct (step_CallThrows st b0 command payload rnd error)
      as (st1 & Hstep' & _ & _ & Hp & _ & _).
    rewrite Hstep in Hstep'. injection Hstep' as <- _.
    rewrite Hp. case_decide as Hb; [subst b0|done].
    rewrite Map_get_set. case_decide; [congruence|done].
  - assert (st' = (step st (Deliver b0 msg)).1) as -> by by rewrite Hstep.
    change (step st (Deliver b0 msg)) with (consume JSON_parse b0 msg st).
    rewrite consume_state.
    destruct (correlationId msg) as [c0|] eqn:Hc0; [|done].
    destruct (Map_get _ c0) as [f0|]; [|done].
    destruct (JSON_parse _) as [v|]; [|done].
    rewrite pending_with_pending, pending_with_settle.
    case_decide as Hb; [subst b0|done].
    rewrite Map_get_delete by apply HI.
    case_decide; [|done]. subst c0. destruct Hnot. by split.
  - by injection Hstep as <-.
  - injection Hstep as <- _. unfold run_timers.
    rewrite foldl_timeout_get.
    + by rewrite pending_with_timers.
    + intros b'. rewrite pending_with_timers. apply HI.
    + intros t [_ Ht]%list_elem_of_filter.
      destruct (inv_pending _ _ HI _ _ _ Hget)
        as [(t' & Ht' & _ & _ & [= ->] & _)|(q & _ & _ & Hno)]; [|auto].
      by destruct (inv_timer_sent _ _ HI _ Ht').
Qed.

(** X30.  In a run with fresh correlation ids, the entry of a call in
    whose [sendRpc] the [sendToQueue] threw stays in its pending map
    whatever happens, as long as no reply that carries its correlation id
    is delivered to the consumer of its backend: no timer was armed for
    it, and the timers of other calls do not remove it. *)
Theorem thrown_send_entry_stays evs0 b command payload rnd error evs1 :
  let st0 := run init evs0 in
  let st :=
    run init (evs0 ++ CallThrows b command payload rnd error :: evs1) in
  fresh init (evs0 ++ CallThrows b command payload rnd error :: evs1)
  = true →
  Forall (λ e, ¬ reply_for b (generateUuid rnd (now st0)) e) evs1 →
  Map_get (pending b st) (generateUuid rnd (now st0))
  = Some (ResolveOf (nextPromise st0))
  ∧ (∀ t, t ∈ timers st → timer_key t ≠ (b, generateUuid rnd (now st0))).
Proof.
  intros st0 st Hfresh Hnone.
  rewrite fresh_app in Hfresh. apply andb_true_iff in Hfresh as [Hf0 Hf1].
  pose proof (reach_Inv _ Hf0) as HI0. fold st0 in HI0, Hf1.
  rewrite fresh_cons in Hf1. apply andb_true_iff in Hf1 as [Hfe Hf1].
  pose proof (Inv_step _ _ HI0 Hfe) as HI1.
  destruct (step_CallThrows st0 b command payload rnd error)
    as (s1 & Hstep & _ & _ & Hp & _ & Hsettle).
  unfold st. rewrite run_app. fold st0.
  change (run st0 (CallThrows b command payload rnd error :: evs1))
    with (run (step st0 (CallThrows b command payload rnd error)).1 evs1).
  rewrite Hstep in HI1, Hf1 |- *. simpl in HI1, Hf1 |- *.
  assert (Map_get (pending b s1) (generateUuid rnd (now st0))
          = Some (ResolveOf (nextPromise st0))) as Hget
    by by rewrite Hp, decide_True, Map_get_set, decide_True.
  assert (failed (nextPromise st0) s1) as Hfail.
  { exists error. rewrite Hsettle. apply elem_of_app. right.
    apply list_elem_of_here. }
  clear Hstep Hp Hsettle HI0 Hfe.
  enough (Inv (timers (run s1 evs1)) (run s1 evs1)
          ∧ Map_get (pending b (run s1 evs1)) (generateUuid rnd (now st0))
            = Some (ResolveOf (nextPromise st0))
          ∧ failed (nextPromise st0) (run s1 evs1)) as (HI & Hg & Hfl).
  { split; [done|].
    destruct (inv_pending _ _ HI _ _ _ Hg)
      as [(t' & Ht' & _ & _ & [= Hq] & _)|(q & _ & _ & Hno)]; [|done].
    destruct (inv_timer_sent _ _ HI _ Ht'). by rewrite <- Hq. }
  revert s1 HI1 Hf1 Hget Hfail.
  induction Hnone as [|e evs1 He Hall IH]; intros s1 HI1 Hf1 Hget Hfail.
  - done.
  - rewrite fresh_cons in Hf1. apply andb_true_iff in Hf1 as [Hfe Hf1].
    destruct (thrown_entry_step _ _ _ _ e HI1 Hget Hfail Hfe He) as [? ?].
    simpl. apply IH; try done. by apply Inv_step.
Qed.
End Gateway_facts.

(** ** The router *)

Section Router_facts.
Context {Value : Type}.
Implicit Types (response : Envelope Value) (published : bool).

(** [PUT /items/:id] publishes [item_updated] exactly when the reply says
    [success]. *)
Lemma put_items_id_published response :
  published_types (put_items_id (Returned response) true)
  = if decide (status response = "success") then ["item_updated"] else [].
Proof. unfold put_items_id. by case_decide. Qed.

(** [DELETE /items/:id] publishes [item_deleted] exactly when the reply
    says [success]. *)
Lemma delete_items_id_published id response :
  published_types (delete_items_id id (Returned response) true)
  = if decide (status response = "success") then ["item_deleted"] else [].
Proof. unfold delete_items_id. by case_decide. Qed.

(** [POST /items] publishes [item_added] whatever the reply says. *)
Lemma post_items_published response :
  published_types (post_items (Returned response) true) = ["item_added"].
Proof. done. Qed.

(** No handler publishes when the call was rejected. *)
Lemma rejected_call_not_published (err : string) id published :
  published_types (post_items (Thrown err : Awaited Value) published) = []
  ∧ published_types (put_items_id (Thrown err : Awaited Value) published) = []
  ∧ published_types
      (delete_items_id id (Thrown err : Awaited Value) published) = [].
Proof. by destruct published. Qed.

(** An error reply becomes 401 on [/login], 404 on [PUT] and [DELETE
    /items/:id], 403 in [authenticateToken]. *)
Lemma error_reply_4xx response id token published :
  status response ≠ "success" →
  response_codes (post_login (Returned response)) = [401]
  ∧ response_codes (put_items_id (Returned response) published) = [404]
  ∧ response_codes (delete_items_id id (Returned response) published) = [404]
  ∧ response_codes (authenticateToken (Some token) (Returned response))
    = [403].
Proof.
  intros Hne. unfold post_login, put_items_id, delete_items_id,
    authenticateToken. by rewrite !decide_False.
Qed.

(** [/signup], [POST /items] and [GET /items] do not look at the status of
    the reply. *)
Lemma status_not_inspected response :
  response_codes (post_signup (Returned response)) = [201]
  ∧ response_codes (post_items (Returned response) true) = [201]
  ∧ response_codes (get_items (Returned response)) = [200].
Proof. done. Qed.

End Router_facts.

(** C5, where the code departs from it.  The item service answers
    [create_item] with an error envelope, and [POST /items] publishes an
    [item_added] event all the same, then answers 201. *)
Lemma post_items_error_reply_published :
  post_items (Returned not_found_reply) true
  = [Publish "item_updates" (ItemEvent "item_added" None);
     Respond {| code := 201; body := Json None |}].
Proof. reflexivity. Qed.

(** C6, where the code departs from it.  The user service answers
    [signup] with the error [Username already exists], and [POST /signup]
    answers 201. *)
Lemma post_signup_error_reply_201 :
  post_signup (Returned username_exists_reply)
  = [Respond {| code := 201; body := Json None |}].
Proof. reflexivity. Qed.

(** ** The broker client *)

Lemma attempts_failed_rounds k : attempts (failed_rounds k) = k.
Proof.
  unfold attempts. induction k as [|k IH]; [done|]. simpl.
  rewrite filter_cons_False by done. by rewrite IH.
Qed.

Lemma attempts_app l1 l2 : attempts (l1 ++ l2) = attempts l1 + attempts l2.
Proof. unfold attempts. by rewrite filter_app, length_app. Qed.

Lemma setupRabbitMQ_loop_spec attempt retries log :
  retries ≤ maxRetries →
  ∃ k, (∀ i, retries ≤ i < retries + k → attempt i = false)
    ∧ ((retries + k < maxRetries ∧ attempt (retries + k) = true
        ∧ setupRabbitMQ_loop attempt retries log
          = (Connected, log ++ failed_rounds k ++ [Attempt true]))
       ∨ (retries + k = maxRetries
          ∧ setupRabbitMQ_loop attempt retries log
            = (Exit 1, log ++ failed_rounds k))).
Proof.
  funelim (setupRabbitMQ_loop attempt retries log); intros Hle.
  - destruct (attempt retries) eqn:Hattempt.
    + exists 0. split; [intros i; lia|]. left.
      rewrite Nat.add_0_r. by split_and!.
    + destruct H as (k & Hfail & Hk); [lia|].
      exists (S k). split.
      * intros i Hi. destruct (decide (i = retries)) as [->|]; [done|].
        apply Hfail. lia.
      * replace (retries + S k) with (S retries + k) by lia.
        destruct Hk as [(? & ? & ->)|(? & ->)]; [left|right];
          split_and!; try done; f_equal; by rewrite <- app_assoc.
  - exists 0. split; [intros i; lia|]. right.
    rewrite app_nil_r. split; [lia|done].
Qed.

(** C8.  Whatever the broker does, [setupRabbitMQ] returns: after [k]
    failed attempts, each followed by the same wait of 5000 ms, either the
    next attempt connects, with [k] below [maxRetries], or [k] is
    [maxRetries] and the process exits with code 1.  So a connection is
    tried at most [maxRetries] times; when the retries are exhausted the
    module never reaches [server.listen]; when an attempt connects it
    does. *)
Theorem setupRabbitMQ_bounded_retries attempt :
  attempts (setupRabbitMQ attempt).2 ≤ maxRetries
  ∧ ∃ k, (∀ i, i < k → attempt i = false)
      ∧ ((k < maxRetries ∧ attempt k = true
          ∧ setupRabbitMQ attempt
            = (Connected, failed_rounds k ++ [Attempt true])
          ∧ main attempt = Listening port)
         ∨ (k = maxRetries
            ∧ setupRabbitMQ attempt = (Exit 1, failed_rounds maxRetries)
            ∧ main attempt = Exited 1)).
Proof.
  unfold main, setupRabbitMQ.
  destruct (setupRabbitMQ_loop_spec attempt 0 []) as (k & Hfail & Hk);
    [unfold maxRetries; lia|].
  simpl in Hk.
  destruct Hk as [(Hlt & Hok & ->)|(-> & ->)]; cbn [fst snd].
  - split.
    + rewrite attempts_app, attempts_failed_rounds.
      unfold attempts. simpl. lia.
    + exists k. split; [intros i Hi; apply Hfail; lia|]. left. done.
  - split.
    + by rewrite attempts_failed_rounds.
    + exists maxRetries. split; [intros i Hi; apply Hfail; lia|]. right. done.
Qed.

(** ** The claims on concrete runs *)


(** C1, as the spec states it, fails here: [sendToQueue] throws in the
    call, say because the channel is closed.  The promise is rejected at
    once with that exception; neither a reply nor the timeout settles it,
    and the timers phase 5000 ms later has nothing to run. *)
Lemma thrown_send_settles_call :
  let evs :=
    [CallThrows ItemBackend "create_item" "Milk" "a1" "Channel closed";
     Tick 5000; Timers] in
  fresh sample_parse init evs = true
  ∧ outcomes 0 (run sample_parse init evs)
    = [Reject 0 (AThrown "Channel closed")]
  ∧ timers (run sample_parse init [CallThrows ItemBackend "create_item"
                                     "Milk" "a1" "Channel closed"]) = [].
Proof. by split_and!. Qed.

(** C2 on a run: two calls to the item service are pending together and
    the replies come in the other order; each call gets its own reply. *)
Lemma replies_matched_by_token_witness :
  let st :=
    run sample_parse init
      [Call ItemBackend "create_item" "Milk" "a1";
       Call ItemBackend "update_item" "Eggs" "b2";
       Deliver ItemBackend (reply "b20" not_found_text);
       Deliver ItemBackend (reply "a10" created_text)] in
  outcomes 0 st = [Resolve 0 (AEnvelope created_reply)]
  ∧ outcomes 1 st = [Resolve 1 (AEnvelope not_found_reply)].
Proof.
  intros st. split.
  - destruct (replies_matched_by_token sample_parse []
                ItemBackend "create_item" "Milk" "a1"
                [Call ItemBackend "update_item" "Eggs" "b2";
                 Deliver ItemBackend (reply "b20" not_found_text);
                 Deliver ItemBackend (reply "a10" created_text)])
      as (_ & H); [reflexivity|].
    apply (H [Call ItemBackend "update_item" "Eggs" "b2";
              Deliver ItemBackend (reply "b20" not_found_text)]
             (reply "a10" created_text) [] created_reply);
      [reflexivity | reflexivity | reflexivity | | reflexivity].
    repeat constructor; simpl; [tauto | intros [_ [=]]].
  - destruct (replies_matched_by_token sample_parse
                [Call ItemBackend "create_item" "Milk" "a1"]
                ItemBackend "update_item" "Eggs" "b2"
                [Deliver ItemBackend (reply "b20" not_found_text);
                 Deliver ItemBackend (reply "a10" created_text)])
      as (_ & H); [reflexivity|].
    apply (H [] (reply "b20" not_found_text)
             [Deliver ItemBackend (reply "a10" created_text)]
             not_found_reply);
      [reflexivity | reflexivity | reflexivity | | reflexivity].
    constructor.
Defined.

(** C3 on a run: a reply that comes after its call has timed out, while
    another call is pending, is dropped. *)
Lemma unknown_token_dropped_witness :
  let st :=
    run sample_parse init
      [Call ItemBackend "create_item" "Milk" "a1"; Tick 5000; Timers;
       Call ItemBackend "get_items" "" "b2"] in
  NoDup (pending ItemBackend st).*1
  ∧ consume sample_parse ItemBackend (reply "a10" created_text) st
    = (st, Normal).
Proof.
  intros st.
  destruct (unknown_token_dropped sample_parse
              [Call ItemBackend "create_item" "Milk" "a1"; Tick 5000; Timers;
               Call ItemBackend "get_items" "" "b2"]
              ItemBackend (reply "a10" created_text))
    as (Hkeys & Hdrop & _).
  - intros c [= <-]. reflexivity.
  - split; [apply Hkeys | exact Hdrop].
Defined.


(** C4, as the spec states it, fails here: [sendToQueue] throws in the
    call, no reply ever comes, and the timers phase runs 5000 ms later.
    The call was not rejected with a timeout error, and its entry is still
    in the map. *)
Lemma thrown_send_leaves_entry :
  let st :=
    run sample_parse init
      [CallThrows ItemBackend "get_items" "" "a1" "Channel closed";
       Tick 5000; Timers] in
  outcomes 0 st = [Reject 0 (AThrown "Channel closed")]
  ∧ Map_get (pendingItemRequests st) "a10" = Some (ResolveOf 0)
  ∧ timers st = [].
Proof. by split_and!. Qed.

(** C7, as the spec states it, fails here: a call is pending, the reply
    that carries its correlation id has a body that is not JSON, and the
    consumer callback throws. *)
Lemma malformed_reply_throws :
  sample_parse "{" = None
  ∧ (consume sample_parse ItemBackend (reply "a10" "{")
       (run sample_parse init [Call ItemBackend "get_items" "" "a1"])).2
    = Throw "SyntaxError".
Proof. split; reflexivity. Qed.


(** C10, as the spec states it, fails here: the event that adds a call
    of [reject] to the record is not the timers phase but a call of
    [sendRpc] in which [sendToQueue] throws. *)
Lemma thrown_send_rejects_without_timeout :
  settlements
    (step sample_parse init
       (CallThrows UserBackend "login" "ann" "b2" "Channel closed")).1
  = [Reject 0 (AThrown "Channel closed")].
Proof. reflexivity. Qed.

(** Why [fresh] asks for more than an id without a pending entry.
    [sendRpc] never cancels its timer, so the timer of a call that was
    resolved is still armed until its deadline.  Were [generateUuid] to
    return the same id again before that, the old timer would find the new
    call's entry, delete it, and call the [reject] of the old promise; the
    new call would get neither its reply nor its timeout. *)
Example stale_timer_takes_reused_id :
  let evs :=
    [Call ItemBackend "get_items" "" "a1";
     Deliver ItemBackend (reply "a10" created_text);
     Call ItemBackend "get_items" "" "a1";
     Tick 5000; Timers;
     Deliver ItemBackend (reply "a10" created_text)] in
  let st := run sample_parse init evs in
  fresh sample_parse init evs = false
  ∧ outcomes 0 st
    = [Resolve 0 (AEnvelope created_reply); Reject 0 (AError "RPC timeout")]
  ∧ outcomes 1 st = []
  ∧ timers st = [].
Proof. by split_and!. Qed.

(** ** More about the router *)

Section Router_more_facts.
Context {Value : Type}.
Implicit Types (r : Awaited Value) (response : Envelope Value).

(** X8.  Whatever the outcome of its RPC call and of its publish, every
    handler ends the request exactly once, by one response or one call of
    [next()], and does so after anything it publishes. *)
Theorem handlers_answer_once token id r published :
  Forall
    (λ effs, ∃ pubs t,
       effs = pubs ++ [t] ∧ terminal t = true
       ∧ Forall (λ e, terminal e = false) pubs)
    [authenticateToken token r; post_signup r; post_login r; get_items r;
     post_items r published; put_items_id r published;
     delete_items_id id r published].
Proof.
  assert (∀ t : Effect Value, terminal t = true →
            ∃ pubs t', [t] = pubs ++ [t'] ∧ terminal t' = true
              ∧ Forall (λ e, terminal e = false) pubs) as Hone
    by (intros t Ht; by exists [], t).
  assert (∀ (p t : Effect Value), terminal p = false → terminal t = true →
            ∃ pubs t', [p; t] = pubs ++ [t'] ∧ terminal t' = true
              ∧ Forall (λ e, terminal e = false) pubs) as Htwo
    by (intros p t Hp Ht; exists [p], t; by repeat constructor).
  repeat apply Forall_cons_2; [..|apply Forall_nil_2];
    unfold authenticateToken, post_signup, post_login, get_items, post_items,
      put_items_id, delete_items_id, broadcast, item_service_timeout;
    destruct r as [response|err], published; try destruct token;
    repeat case_decide; repeat case_match; auto.
Qed.

(** X9.  [PUT /items/:id] and [DELETE /items/:id] publish exactly when the
    reply says [success] and the publish goes through, and then one event
    on [item_updates]: [item_updated] with the data of the reply,
    [item_deleted] with the id of the URL. *)
Theorem update_delete_publish_iff_success id r published :
  published_events (put_items_id r published)
  = match r with
    | Returned response =>
        if decide (status response = "success") then
          if published
          then [("item_updates", ItemEvent "item_updated" (data response))]
          else []
        else []
    | Thrown _ => []
    end
  ∧ published_events (delete_items_id id r published)
    = match r with
      | Returned response =>
          if decide (status response = "success") then
            if published
            then [("item_updates", IdEvent "item_deleted" id)]
            else []
          else []
      | Thrown _ => []
      end.
Proof.
  unfold put_items_id, delete_items_id, broadcast.
  destruct r as [response|err]; [|done].
  case_decide; [|done]. by destruct published.
Qed.

(** X10.  [authenticateToken] lets a request through only with a token in
    the header and a [verify_token] reply that says [success] and carries
    data; [next()] then runs with that data. *)
Theorem authenticateToken_next token r (d : Value) :
  Next d ∈ authenticateToken token r ↔
  ∃ t response,
    token = Some t ∧ r = Returned response
    ∧ status response = "success" ∧ data response = Some d.
Proof.
  unfold authenticateToken. split.
  - destruct token as [t|]; [|by intros [=]%list_elem_of_singleton].
    destruct r as [response|err]; [|by intros [=]%list_elem_of_singleton].
    case_decide; [|by intros [=]%list_elem_of_singleton].
    destruct (data response) as [d'|] eqn:Hd;
      [|by intros [=]%list_elem_of_singleton].
    intros [= ->]%list_elem_of_singleton. by exists t, response.
  - intros (t & response & -> & -> & Hs & ->).
    rewrite decide_True by done. apply list_elem_of_here.
Qed.

(** X11.  When the RPC call was rejected, every route answers 504 and
    [authenticateToken] 503; nothing is published and [next()] is not
    called. *)
Theorem rejected_call_5xx (err t : string) id published :
  let r : Awaited Value := Thrown err in
  Forall (λ effs, response_codes effs = [504] ∧ published_events effs = [])
    [post_signup r; post_login r; get_items r; post_items r published;
     put_items_id r published; delete_items_id id r published]
  ∧ authenticateToken (Some t) r
    = [Respond {| code := 503; body := StatusText |}].
Proof. intros r. split; [|done]. by repeat constructor. Qed.

End Router_more_facts.

Section Objects_facts.
Context {V : Type}.
Implicit Types (body : list (string * V)) (k : string).

Lemma obj_spread_keys_NoDup target body :
  NoDup target.*1 → NoDup (obj_spread target body).*1.
Proof.
  unfold obj_spread. revert target.
  induction body as [|[k v] body IH]; intros target Ht; simpl; [done|].
  apply IH. by apply Map_set_keys_NoDup.
Qed.

Lemma obj_spread_get target body k :
  NoDup body.*1 →
  Map_get (obj_spread target body) k
  = match Map_get body k with
    | Some v => Some v
    | None => Map_get target k
    end.
Proof.
  unfold obj_spread. revert target.
  induction body as [|[k0 v0] body IH]; intros target; simpl; [done|].
  rewrite NoDup_cons. intros [Hk0 Hnd]. rewrite IH by done.
  case_decide as Hk; [subst k0|].
  - apply Map_get_None in Hk0. rewrite Hk0.
    by rewrite Map_get_set, decide_True.
  - destruct (Map_get body k); [done|].
    by rewrite Map_get_set, decide_False.
Qed.

(** X12.  In the payloads of [POST], [PUT] and [DELETE /items] the
    property [userEmail] is the name of the authenticated user whatever
    the request body holds, and no key occurs twice. *)
Theorem userEmail_from_token id body (username : V) :
  Forall (λ payload,
            Map_get payload "userEmail" = Some username ∧ NoDup payload.*1)
    [create_item_payload body username;
     update_item_payload id body username;
     delete_item_payload id username].
Proof.
  repeat apply Forall_cons_2; [..|apply Forall_nil_2];
    unfold create_item_payload, update_item_payload, delete_item_payload;
    (split; [by rewrite Map_get_set, decide_True|]);
    repeat first [apply Map_set_keys_NoDup | apply obj_spread_keys_NoDup];
    apply NoDup_nil_2.
Qed.

(** X13.  In the payload of [PUT /items/:id] an [id] in the request body
    takes the place of the id of the URL; every other property of the body
    except [userEmail] is passed on as it is. *)
Theorem update_item_payload_body_wins id body (username : V) k :
  NoDup body.*1 →
  k ≠ "userEmail" →
  Map_get (update_item_payload id body username) k
  = match Map_get body k with
    | Some v => Some v
    | None => if decide (k = "id") then Some id else None
    end.
Proof.
  intros Hnd Hk. unfold update_item_payload.
  rewrite Map_get_set, decide_False by done.
  rewrite obj_spread_get by done.
  destruct (Map_get body k); [done|]. simpl.
  repeat case_decide; congruence.
Qed.

End Objects_facts.

(** ** The shopping list component *)

Section Client_facts.
Context {Fields : Type}.
Implicit Types (item : Item Fields) (items l : list (option (Item Fields))).
Implicit Types (msg : Push Fields).

Lemma items_replace_ids o items l :
  items_replace o items = Some l →
  item_ids l = item_ids items.
Proof.
  revert l. induction items as [|i items IH]; intros l; simpl.
  - by intros [= <-].
  - destruct i as [i'|], o as [item'|]; try done.
    destruct (items_replace (Some item') items) as [l'|]; [|done].
    intros [= <-]. specialize (IH l' eq_refl).
    unfold item_ids in *. rewrite !fmap_cons, IH.
    f_equal. by case_decide; simpl; f_equal.
Qed.

Lemma items_replace_undefined o items :
  None ∈ items → items_replace o items = None.
Proof.
  induction items as [|i items IH]; [by intros ?%elem_of_nil|].
  intros [<-|Hin]%elem_of_cons; simpl; [done|].
  destruct i, o; try done. by rewrite IH.
Qed.

Lemma items_remove_undefined id items :
  None ∈ items → items_remove id items = None.
Proof.
  induction items as [|i items IH]; [by intros ?%elem_of_nil|].
  intros [<-|Hin]%elem_of_cons; simpl; [done|].
  destruct i; [|done]. by rewrite IH.
Qed.

Lemma items_remove_filter id items l :
  items_remove id items = Some l →
  l = filter (λ i, item_id <$> i ≠ id) items.
Proof.
  revert l. induction items as [|i items IH]; intros l; simpl.
  - by intros [= <-].
  - destruct i as [i'|]; [|done].
    destruct (items_remove id items) as [l'|]; [|done].
    intros [= <-]. rewrite (IH l' eq_refl), filter_cons. simpl.
    repeat case_decide; done.
Qed.

Lemma items_remove_again id items l :
  items_remove id items = Some l → items_remove id l = Some l.
Proof.
  revert l. induction items as [|i items IH]; intros l; simpl.
  - by intros [= <-].
  - destruct i as [i'|]; [|done].
    destruct (items_remove id items) as [l'|]; [|done].
    intros [= <-]. specialize (IH l' eq_refl).
    case_decide; simpl; [done|].
    by rewrite IH, decide_False.
Qed.

Lemma count_id_filter_ne (x y : Z) items :
  y ≠ x →
  count_id y (filter (λ i, item_id <$> i ≠ Some x) items) = count_id y items.
Proof.
  intros Hne. unfold count_id.
  induction items as [|i items IH]; [done|].
  rewrite !filter_cons.
  destruct (decide (item_id <$> i = Some y)) as [Hy|Hy].
  - rewrite decide_True by congruence.
    rewrite filter_cons, decide_True by done. simpl. by rewrite IH.
  - case_decide; [|done]. by rewrite filter_cons, decide_False.
Qed.

Lemma count_id_filter_eq (x : Z) items :
  count_id x (filter (λ i, item_id <$> i ≠ Some x) items) = 0.
Proof.
  unfold count_id. induction items as [|i items IH]; [done|].
  rewrite filter_cons. case_decide; [|done].
  by rewrite filter_cons, decide_False.
Qed.

Lemma on_message_updated msg items :
  push_type msg = "item_updated" →
  on_message msg items = assign items (items_replace (push_item msg) items).
Proof.
  intros Ht. unfold on_message. rewrite Ht. simpl.
  by destruct (items_replace (push_item msg) items).
Qed.

Lemma on_message_deleted msg items :
  push_type msg = "item_deleted" →
  on_message msg items = assign items (items_remove (push_id msg) items).
Proof. intros Ht. unfold on_message. rewrite Ht. done. Qed.

Lemma on_message_added msg items :
  push_type msg = "item_added" →
  on_message msg items = (items ++ [push_item msg], Normal).
Proof. intros Ht. unfold on_message. rewrite Ht. done. Qed.

(** X14.  An [item_updated] message that the listener handles without
    throwing leaves the ids of the list as they were, entry by entry: it
    adds nothing, removes nothing and moves nothing. *)
Theorem item_updated_keeps_ids msg items items' :
  push_type msg = "item_updated" →
  on_message msg items = (items', Normal) →
  item_ids items' = item_ids items.
Proof.
  intros Ht. rewrite on_message_updated by done.
  destruct (items_replace (push_item msg) items) as [l|] eqn:Hl; [|done].
  intros [= <-]. by eapply items_replace_ids.
Qed.

(** X15.  After an [item_deleted] message that the listener handles
    without throwing, no entry has the deleted id, the entries with any
    other id are as many as before, and the same message handled again
    changes nothing. *)
Theorem item_deleted_removes msg items items' x :
  push_type msg = "item_deleted" →
  push_id msg = Some x →
  on_message msg items = (items', Normal) →
  count_id x items' = 0
  ∧ (∀ y, y ≠ x → count_id y items' = count_id y items)
  ∧ on_message msg items' = (items', Normal).
Proof.
  intros Ht Hx. rewrite !on_message_deleted by done. rewrite Hx.
  destruct (items_remove (Some x) items) as [l|] eqn:Hl; [|done].
  intros [= <-].
  rewrite (items_remove_again _ _ _ Hl).
  apply items_remove_filter in Hl as ->.
  split_and!; [apply count_id_filter_eq | |done].
  intros y Hy. by apply count_id_filter_ne.
Qed.

(** X16.  The listener appends the item of an [item_added] message without
    looking for its id in the list, and so does [addItem] with the answer
    to its request.  The client that created an item gets both, in either
    order, and then holds the item twice. *)
Theorem created_item_shown_twice item items msg :
  push_type msg = "item_added" →
  push_item msg = Some item →
  count_id (item_id item) (on_message msg (addItem (Some item) items)).1
  = count_id (item_id item) items + 2
  ∧ count_id (item_id item) (addItem (Some item) (on_message msg items).1)
    = count_id (item_id item) items + 2.
Proof.
  intros Ht Hi. rewrite !on_message_added by done. rewrite Hi. simpl.
  unfold count_id. rewrite !filter_app, !length_app.
  rewrite !filter_cons, !decide_True by done. simpl. lia.
Qed.

Lemma items_toggle_replace item' items l :
  items_toggle (item_id item') items = Some l →
  items_replace (Some item') l = items_replace (Some item') items.
Proof.
  revert l. induction items as [|i items IH]; intros l; simpl.
  - by intros [= <-].
  - destruct i as [i'|]; [|done].
    destruct (items_toggle (item_id item') items) as [l'|]; [|done].
    intros [= <-]. specialize (IH l' eq_refl).
    case_decide; simpl; rewrite IH; by repeat case_decide.
Qed.

Lemma items_toggle_defined x item' items l :
  items_toggle x items = Some l →
  is_Some (items_replace (Some item') items).
Proof.
  revert l. induction items as [|i items IH]; intros l; simpl; [by eauto|].
  destruct i as [i'|]; [|done].
  destruct (items_toggle x items) as [l'|]; [|done].
  intros _. destruct (IH l' eq_refl) as [l2 ->]. by eauto.
Qed.

(** X17.  The [item_updated] message that follows a local toggle puts the
    list in the state it would have reached without the toggle: the
    pushed item replaces the toggled copy. *)
Theorem push_overrides_local_toggle item items l msg item' :
  toggleBought item items = (l, Normal) →
  push_type msg = "item_updated" →
  push_item msg = Some item' →
  item_id item' = item_id item →
  on_message msg l = on_message msg items.
Proof.
  unfold toggleBought. intros Htog Ht Hi Hid.
  rewrite !on_message_updated by done. rewrite Hi, <- Hid in *.
  destruct (items_toggle (item_id item') items) as [l'|] eqn:Hl; [|done].
  injection Htog as <-.
  rewrite (items_toggle_replace _ _ _ Hl).
  by destruct (items_toggle_defined _ item' _ _ Hl) as [l2 ->].
Qed.

(** X18.  An [item_added] message without [item] puts [undefined] in the
    list.  From then on every [item_updated] and every [item_deleted]
    message makes the listener throw a [TypeError] and leaves the list as
    it is. *)
Theorem undefined_item_breaks_pushes msg0 msg items :
  let items0 := (on_message msg0 items).1 in
  push_type msg0 = "item_added" →
  push_item msg0 = None →
  push_type msg = "item_updated" ∨ push_type msg = "item_deleted" →
  items0 = items ++ [None]
  ∧ on_message msg items0 = (items0, Throw "TypeError").
Proof.
  intros items0 Ht0 Hi0 Ht. unfold items0.
  rewrite on_message_added by done. rewrite Hi0. simpl.
  split; [done|].
  assert (None ∈ items ++ [None]) as Hin
    by (apply elem_of_app; right; apply list_elem_of_here).
  destruct Ht as [Ht|Ht].
  - rewrite on_message_updated by done.
    by rewrite items_replace_undefined.
  - rewrite on_message_deleted by done.
    by rewrite items_remove_undefined.
Qed.

(** X19.  Toggling the same item twice restores the list. *)
Theorem toggleBought_twice item items l :
  toggleBought item items = (l, Normal) →
  toggleBought item l = (items, Normal).
Proof.
  unfold toggleBought.
  destruct (items_toggle (item_id item) items) as [l'|] eqn:Hl; [|done].
  intros [= <-].
  enough (items_toggle (item_id item) l' = Some items) as -> by done.
  revert l' Hl. induction items as [|i items IH]; intros l'; simpl.
  - by intros [= <-].
  - destruct i as [i'|]; [|done].
    destruct (items_toggle (item_id item) items) as [l2|]; [|done].
    intros [= <-]. simpl. rewrite (IH l2 eq_refl). simpl.
    f_equal. f_equal.
    case_decide; simpl; rewrite ?decide_True, ?decide_False by done; [|done].
    destruct i'. simpl. by rewrite negb_involutive.
Qed.

End Client_facts.

(** ** The workers *)

Section ItemService_facts.
Context {Row Payload : Type}.
Context (JSON_parse : string → option (option (Parsed Payload)))
        (pool_query : @ItemService.Query Payload → list Row + JSError)
        (producer_send : string → option JSError)
        (type_error_text : string → string).

Local Abbreviation switch :=
  (ItemService.switch pool_query producer_send type_error_text).
Local Abbreviation handleRequest :=
  (ItemService.handleRequest JSON_parse pool_query producer_send
     type_error_text).

Lemma item_handleRequest_parsed msg req :
  JSON_parse (content (job_message msg)) = Some (Some req) →
  handleRequest msg
  = ((switch req).1 ++ reply_and_ack msg (catch_error (switch req).2),
     Normal).
Proof.
  intros Hp. unfold ItemService.handleRequest. rewrite Hp.
  by destruct (switch req).
Qed.

Lemma item_switch_shape req :
  Forall (λ e, is_reply e = false ∧ is_ack e = false) (switch req).1
  ∧ length (filter (λ e, is_query e = true) (switch req).1) ≤ 1
  ∧ length (filter (λ e, is_produced e = true) (switch req).1)
    ≤ length (filter (λ e, is_query e = true) (switch req).1).
Proof.
  unfold ItemService.switch.
  repeat case_decide; repeat case_match; simpl;
    (split_and!; [by repeat constructor|..]);
    rewrite ?filter_cons, ?filter_nil; simpl;
    repeat case_decide; simpl; try done; lia.
Qed.

(** X20.  The item worker answers every request whose body it can take
    apart exactly once and then acknowledges it, whatever the command, the
    database and Kafka do: the reply goes to the queue named in [replyTo]
    and carries the correlation id of the request; before it there is at
    most one query and no Kafka message without a query.  A body that
    [JSON.parse] rejects, or that is [null], makes the handler throw
    before it replies or acknowledges. *)
Theorem item_worker_replies_once msg :
  match JSON_parse (content (job_message msg)) with
  | Some (Some req) =>
      ∃ pre response,
        handleRequest msg
        = (pre ++ [Replied (replyTo msg) response
                     (correlationId (job_message msg)); Acked], Normal)
        ∧ Forall (λ e, is_reply e = false ∧ is_ack e = false) pre
        ∧ length (filter (λ e, is_query e = true) pre) ≤ 1
        ∧ length (filter (λ e, is_produced e = true) pre)
          ≤ length (filter (λ e, is_query e = true) pre)
  | _ => ∃ err, handleRequest msg = ([], Throw err)
  end.
Proof.
  destruct (JSON_parse (content (job_message msg))) as [[req|]|] eqn:Hp.
  - exists (switch req).1, (catch_error (switch req).2).
    split; [by apply item_handleRequest_parsed | apply item_switch_shape].
  - unfold ItemService.handleRequest. rewrite Hp. by eexists.
  - unfold ItemService.handleRequest. rewrite Hp. by eexists.
Qed.

(** X21.  The item worker sends a Kafka message only for a row that an
    [INSERT] or an [UPDATE] of the same request returned: the topic is
    [item-created] or [item-updated] accordingly, and the reply to the
    request says [success] and carries that row. *)
Theorem item_event_after_write msg effs c topic v :
  handleRequest msg = (effs, c) →
  Produced topic v ∈ effs →
  (∃ pre,
     effs = pre ++ reply_and_ack msg
                     (success (ItemService.OneRow <$> ItemService.event_row v)))
  ∧ ∃ q rows,
      pool_query q = inl rows
      ∧ head rows = ItemService.event_row v
      ∧ Queried q ∈ effs
      ∧ ((topic = "item-created"
          ∧ q = ItemService.InsertItem (ItemService.event_payload v))
         ∨ (topic = "item-updated"
            ∧ q = ItemService.UpdateItem (ItemService.event_payload v))).
Proof.
  unfold ItemService.handleRequest.
  destruct (JSON_parse _) as [[req|]|];
    [|by intros [= <- <-] ?%elem_of_nil..].
  unfold ItemService.switch.
  repeat case_decide; repeat case_match; simplify_eq/=;
    intros [= <- <-] Hin;
    repeat (apply elem_of_cons in Hin as [Hin|Hin]; simplify_eq/=);
    try (by apply elem_of_nil in Hin).
  - split; [by eexists [_; _]|].
    eexists _, _. split_and!; [done..|apply list_elem_of_here|by left].
  - split; [by eexists [_; _]|].
    eexists _, _. split_and!; [done..|apply list_elem_of_here|by right].
Qed.

(** X22.  When the [UPDATE] has returned a row and the send to Kafka is
    rejected, the worker has run the statement and replies with an error
    that carries the message of Kafka's; the gateway's [PUT /items/:id]
    turns this reply into a 404 with that message and publishes
    nothing. *)
Theorem update_written_but_not_found msg req pl row rows err published :
  JSON_parse (content (job_message msg)) = Some (Some req) →
  command req = Some "update_item" →
  payload req = Some pl →
  pool_query (ItemService.UpdateItem pl) = inl (row :: rows) →
  producer_send "item-updated" = Some err →
  let response := failure (err_message err) in
  handleRequest msg
  = (Queried (ItemService.UpdateItem pl) :: reply_and_ack msg response,
     Normal)
  ∧ put_items_id (Returned response) published
    = [Respond {| code := 404; body := Text (err_message err) |}].
Proof.
  intros Hp Hc Hpl Hq Hk response.
  rewrite (item_handleRequest_parsed _ _ Hp).
  unfold ItemService.switch. rewrite Hc, Hpl, Hq, Hk. done.
Qed.

(** X23.  An [UPDATE] or a [DELETE] that matches no row makes the worker
    reply [Item not found] without a Kafka message, and the gateway's
    [PUT] and [DELETE /items/:id] answer that reply with 404 and
    [Item not found] and publish nothing. *)
Theorem absent_item_not_found msg req pl id published :
  JSON_parse (content (job_message msg)) = Some (Some req) →
  payload req = Some pl →
  (command req = Some "update_item"
   ∧ pool_query (ItemService.UpdateItem pl) = inl [])
  ∨ (command req = Some "delete_item"
     ∧ pool_query (ItemService.DeleteItem pl) = inl []) →
  let response : Envelope ItemService.Data :=
    failure (Some "Item not found") in
  let not_found : list (Effect ItemService.Data) :=
    [Respond {| code := 404; body := Text (Some "Item not found") |}] in
  (∃ q, handleRequest msg = (Queried q :: reply_and_ack msg response, Normal))
  ∧ put_items_id (Returned response) published = not_found
  ∧ delete_items_id id (Returned response) published = not_found.
Proof.
  intros Hp Hpl Hq response not_found. split; [|done].
  rewrite (item_handleRequest_parsed _ _ Hp).
  unfold ItemService.switch.
  destruct Hq as [[Hc Hq]|[Hc Hq]]; rewrite Hc, Hpl, Hq; by eexists.
Qed.

End ItemService_facts.

Section UserService_facts.
Context {Row Payload Hash Token Decoded : Type}.
Context (JSON_parse : string → option (option (Parsed Payload)))
        (pool_query : @UserService.Query Payload Hash → list Row + JSError)
        (producer_send : string → option JSError)
        (bcrypt_hash : Payload → Hash + JSError)
        (bcrypt_compare : Payload → Row → bool + JSError)
        (jwt_sign : Row → Token)
        (jwt_verify : Payload → option Decoded)
        (type_error_text : string → string).

Local Abbreviation Data := (@UserService.Data Row Token Decoded).
Local Abbreviation switch :=
  (UserService.switch pool_query producer_send bcrypt_hash bcrypt_compare
     jwt_sign jwt_verify type_error_text).
Local Abbreviation handleRequest :=
  (UserService.handleRequest JSON_parse pool_query producer_send bcrypt_hash
     bcrypt_compare jwt_sign jwt_verify type_error_text).

Lemma user_handleRequest_parsed msg req :
  JSON_parse (content (job_message msg)) = Some (Some req) →
  handleRequest msg
  = ((switch req).1 ++ reply_and_ack msg (catch_error (switch req).2),
     Normal).
Proof.
  intros Hp. unfold UserService.handleRequest. rewrite Hp.
  by destruct (switch req).
Qed.

Lemma user_switch_shape req :
  Forall (λ e, is_reply e = false ∧ is_ack e = false) (switch req).1
  ∧ length (filter (λ e, is_query e = true) (switch req).1) ≤ 1
  ∧ length (filter (λ e, is_produced e = true) (switch req).1)
    ≤ length (filter (λ e, is_query e = true) (switch req).1).
Proof.
  unfold UserService.switch.
  repeat case_decide; repeat case_match; simpl;
    (split_and!; [by repeat constructor|..]);
    rewrite ?filter_cons, ?filter_nil; simpl;
    repeat case_decide; simpl; try done; lia.
Qed.

(** X24.  The user worker, too, answers every request whose body it can
    take apart exactly once, to [replyTo] and with the correlation id of
    the request, and then acknowledges it, whatever the command, bcrypt,
    the database, the token library and Kafka do; a body that
    [JSON.parse] rejects, or that is [null], makes the handler throw
    before it replies or acknowledges. *)
Theorem user_worker_replies_once msg :
  match JSON_parse (content (job_message msg)) with
  | Some (Some req) =>
      ∃ pre response,
        handleRequest msg
        = (pre ++ [Replied (replyTo msg) response
                     (correlationId (job_message msg)); Acked], Normal)
        ∧ Forall (λ e, is_reply e = false ∧ is_ack e = false) pre
        ∧ length (filter (λ e, is_query e = true) pre) ≤ 1
        ∧ length (filter (λ e, is_produced e = true) pre)
          ≤ length (filter (λ e, is_query e = true) pre)
  | _ => ∃ err, handleRequest msg = ([], Throw err)
  end.
Proof.
  destruct (JSON_parse (content (job_message msg))) as [[req|]|] eqn:Hp.
  - exists (switch req).1, (catch_error (switch req).2).
    split; [by apply user_handleRequest_parsed | apply user_switch_shape].
  - unfold UserService.handleRequest. rewrite Hp. by eexists.
  - unfold UserService.handleRequest. rewrite Hp. by eexists.
Qed.

(** X25.  A login with a name that has no row and a login with a wrong
    password get the same reply, [Invalid credentials], and the gateway
    answers both with 401 and that text. *)
Theorem login_failures_alike msg req pl rows :
  JSON_parse (content (job_message msg)) = Some (Some req) →
  command req = Some "login" →
  payload req = Some pl →
  pool_query (UserService.SelectUser pl) = inl rows →
  head rows = None
  ∨ (∃ user, head rows = Some user ∧ bcrypt_compare pl user = inl false) →
  let response : Envelope Data := failure (Some "Invalid credentials") in
  handleRequest msg
  = (Queried (UserService.SelectUser pl) :: reply_and_ack msg response,
     Normal)
  ∧ post_login (Returned response)
    = [Respond {| code := 401; body := Text (Some "Invalid credentials") |}].
Proof.
  intros Hp Hc Hpl Hq Hrows response. split; [|done].
  rewrite (user_handleRequest_parsed _ _ Hp).
  unfold UserService.switch.
  rewrite decide_False by (rewrite Hc; congruence).
  rewrite Hc, Hpl, Hq. simpl.
  destruct Hrows as [->|(user & -> & ->)]; done.
Qed.

(** X26.  A signup whose insertion is rejected with code 23505 is
    answered [Username already exists], with no Kafka message; the
    gateway's [POST /signup] passes this reply on as 201 without a
    body. *)
Theorem signup_taken_name msg req pl hashedPassword err :
  JSON_parse (content (job_message msg)) = Some (Some req) →
  command req = Some "signup" →
  payload req = Some pl →
  bcrypt_hash pl = inl hashedPassword →
  pool_query (UserService.InsertUser pl hashedPassword) = inr err →
  err_code err = Some "23505" →
  let response : Envelope Data := failure (Some "Username already exists") in
  handleRequest msg
  = (Queried (UserService.InsertUser pl hashedPassword)
       :: reply_and_ack msg response, Normal)
  ∧ post_signup (Returned response)
    = [Respond {| code := 201; body := Json None |}].
Proof.
  intros Hp Hc Hpl Hh Hq Herr response. split; [|done].
  rewrite (user_handleRequest_parsed _ _ Hp).
  unfold UserService.switch, UserService.unique_violation.
  rewrite Hc, Hpl, Hh, Hq, Herr. done.
Qed.

(** X27.  The gateway's [authenticateToken] lets a request through
    exactly when [jwt.verify] accepts its token in the user worker, which
    asks neither the database nor Kafka: the worker's reply to
    [verify_token] makes the middleware call [next()] with the decoded
    token, or answer 403. *)
Theorem verify_token_decides msg req pl t :
  JSON_parse (content (job_message msg)) = Some (Some req) →
  command req = Some "verify_token" →
  payload req = Some pl →
  ∃ response : Envelope Data,
    handleRequest msg = (reply_and_ack msg response, Normal)
    ∧ authenticateToken (Some t) (Returned response)
      = match jwt_verify pl with
        | Some decoded => [Next (UserService.Verified decoded)]
        | None => [Respond {| code := 403; body := StatusText |}]
        end.
Proof.
  intros Hp Hc Hpl.
  rewrite (user_handleRequest_parsed _ _ Hp).
  unfold UserService.switch.
  rewrite !decide_False by (rewrite Hc; congruence).
  rewrite Hc, Hpl. simpl.
  eexists. split; [done|]. by destruct (jwt_verify pl).
Qed.

(** X28.  The user worker sends a Kafka message only on [user-created]
    and only for the row that the [INSERT] of a signup returned; the reply
    to that signup says [success] and carries that row with a token signed
    for it. *)
Theorem user_event_after_signup msg effs c topic user :
  handleRequest msg = (effs, c) →
  Produced topic user ∈ effs →
  topic = "user-created"
  ∧ (∃ pre,
       effs = pre ++ reply_and_ack msg
                       (success
                          (Some (UserService.Session user (jwt_sign user)))))
  ∧ ∃ pl hashedPassword rows,
      bcrypt_hash pl = inl hashedPassword
      ∧ pool_query (UserService.InsertUser pl hashedPassword) = inl rows
      ∧ head rows = Some user
      ∧ Queried (UserService.InsertUser pl hashedPassword) ∈ effs.
Proof.
  unfold UserService.handleRequest.
  destruct (JSON_parse _) as [[req|]|];
    [|by intros [= <- <-] ?%elem_of_nil..].
  unfold UserService.switch.
  repeat case_decide; repeat case_match; simplify_eq/=;
    intros [= <- <-] Hin;
    repeat (apply elem_of_cons in Hin as [Hin|Hin]; simplify_eq/=);
    try (by apply elem_of_nil in Hin).
  split; [done|]. split; [by eexists [_; _]|].
  eexists _, _, _. split_and!; [done..|]. apply list_elem_of_here.
Qed.

End UserService_facts.

Section Start_facts.

Lemma connect_loop_spec maxRetries attempt retries log :
  retries ≤ maxRetries →
  ∃ k, (∀ i, retries ≤ i < retries + k → attempt i = false)
    ∧ ((retries + k < maxRetries ∧ attempt (retries + k) = true
        ∧ connect_loop maxRetries attempt retries log
          = (true, log ++ failed_rounds k ++ [Attempt true]))
       ∨ (retries + k = maxRetries
          ∧ connect_loop maxRetries attempt retries log
            = (false, log ++ failed_rounds k))).
Proof.
  funelim (connect_loop maxRetries attempt retries log); intros Hle.
  - destruct (attempt retries) eqn:Hattempt.
    + exists 0. split; [intros i; lia|]. left.
      rewrite Nat.add_0_r. by split_and!.
    + destruct H as (k & Hfail & Hk); [lia|].
      exists (S k). split.
      * intros i Hi. destruct (decide (i = retries)) as [->|]; [done|].
        apply Hfail. lia.
      * replace (retries + S k) with (S retries + k) by lia.
        destruct Hk as [(? & ? & ->)|(? & ->)]; [left|right];
          split_and!; try done; f_equal; by rewrite <- app_assoc.
  - exists 0. split; [intros i; lia|]. right.
    rewrite app_nil_r. split; [lia|done].
Qed.

(** X29.  [startItemService] and [startUserService] try the broker only
    after the database and the Kafka producer are there, and then at most
    ten times with a wait of 5000 ms after each failure: after [k] failed
    attempts either the next one installs the consumer of the worker's own
    queue, with [k] below ten, or [k] is ten and the process exits with
    code 1.  Without the database the process exits with code 1 at once;
    without the producer the start function is rejected. *)
Theorem workers_bounded_retries database producer attempt :
  Forall
    (λ '(start, queue),
       attempts (start database producer attempt).2 ≤ 10
       ∧ match database, producer with
         | false, _ => start database producer attempt = (ProcessExit 1, [])
         | true, false => start database producer attempt = (Unhandled, [])
         | true, true =>
             ∃ k, (∀ i, i < k → attempt i = false)
               ∧ ((k < 10 ∧ attempt k = true
                   ∧ start database producer attempt
                     = (Consuming queue, failed_rounds k ++ [Attempt true]))
                  ∨ (k = 10
                     ∧ start database producer attempt
                       = (ProcessExit 1, failed_rounds 10)))
         end)
    [(ItemService.startItemService, "item_requests");
     (UserService.startUserService, "user_requests")].
Proof.
  assert (∀ queue,
    attempts (start_worker queue 10 database producer attempt).2 ≤ 10
    ∧ match database, producer with
      | false, _ =>
          start_worker queue 10 database producer attempt = (ProcessExit 1, [])
      | true, false =>
          start_worker queue 10 database producer attempt = (Unhandled, [])
      | true, true =>
          ∃ k, (∀ i, i < k → attempt i = false)
            ∧ ((k < 10 ∧ attempt k = true
                ∧ start_worker queue 10 database producer attempt
                  = (Consuming queue, failed_rounds k ++ [Attempt true]))
               ∨ (k = 10
                  ∧ start_worker queue 10 database producer attempt
                    = (ProcessExit 1, failed_rounds 10)))
      end) as Hstart.
  { intros queue. unfold start_worker.
    destruct database; [|split; [unfold attempts; simpl; lia|done]].
    destruct producer; [|split; [unfold attempts; simpl; lia|done]].
    destruct (connect_loop_spec 10 attempt 0 []) as (k & Hfail & Hk); [lia|].
    simpl in Hk.
    destruct Hk as [(Hlt & Hok & ->)|(-> & ->)]; cbn [fst snd].
    - split.
      + rewrite attempts_app, attempts_failed_rounds.
        unfold attempts. simpl. lia.
      + exists k. split; [intros i Hi; apply Hfail; lia|]. left. done.
    - split.
      + by rewrite attempts_failed_rounds.
      + exists 10. split; [intros i Hi; apply Hfail; lia|]. right. done. }
  repeat apply Forall_cons_2; [apply Hstart..|apply Forall_nil_2].
Qed.

End Start_facts.

(** ** The further properties on concrete runs *)




(** X6 on a run: the replies to two pending calls, in either order. *)
Lemma replies_commute_witness :
  let st :=
    run sample_parse init
      [Call ItemBackend "create_item" "Milk" "a1";
       Call ItemBackend "update_item" "Eggs" "b2"] in
  let m1 := reply "a10" created_text in
  let m2 := reply "b20" not_found_text in
  let s12 := run sample_parse st [Deliver ItemBackend m1; Deliver ItemBackend m2] in
  let s21 := run sample_parse st [Deliver ItemBackend m2; Deliver ItemBackend m1] in
  (∀ b, pending b s12 = pending b s21)
  ∧ (∀ p, outcomes p s12 = outcomes p s21)
  ∧ timers s12 = timers s21.
Proof.
  apply (replies_commute sample_parse
           [Call ItemBackend "create_item" "Milk" "a1";
            Call ItemBackend "update_item" "Eggs" "b2"]
           ItemBackend (reply "a10" created_text)
           ItemBackend (reply "b20" not_found_text));
    [reflexivity | discriminate].
Defined.

(** X13 on a payload: the body of the request carries an [id] of its
    own. *)
Lemma update_item_payload_body_wins_witness :
  Map_get (update_item_payload "7" [("name", "Milk"); ("id", "9")] "ann") "id"
  = Some "9".
Proof.
  apply (update_item_payload_body_wins "7" [("name", "Milk"); ("id", "9")]
           "ann" "id");
    [apply (bool_decide_unpack _); vm_compute; reflexivity | discriminate].
Defined.

(** X14 on a list of two items. *)
Lemma item_updated_keeps_ids_witness :
  item_ids [Some milk_bought; Some eggs_item]
  = item_ids [Some milk_item; Some eggs_item].
Proof.
  apply (item_updated_keeps_ids
           (push "item_updated" (Some milk_bought) None)
           [Some milk_item; Some eggs_item]
           [Some milk_bought; Some eggs_item]);
    reflexivity.
Defined.

(** X15 on a list that shows an item twice. *)
Lemma item_deleted_removes_witness :
  let msg := push "item_deleted" None (Some 1%Z) in
  let items := [Some milk_item; Some eggs_item; Some milk_item] in
  count_id 1 [Some eggs_item] = 0
  ∧ (∀ y, y ≠ 1%Z → count_id y [Some eggs_item] = count_id y items)
  ∧ on_message msg [Some eggs_item] = ([Some eggs_item], Normal).
Proof.
  apply (item_deleted_removes (push "item_deleted" None (Some 1%Z))
           [Some milk_item; Some eggs_item; Some milk_item]
           [Some eggs_item] 1);
    reflexivity.
Defined.

(** X16 on a list of one item. *)
Lemma created_item_shown_twice_witness :
  let msg := push "item_added" (Some milk_item) None in
  count_id 1 (on_message msg (addItem (Some milk_item) [Some eggs_item])).1
  = count_id 1 [Some eggs_item] + 2
  ∧ count_id 1 (addItem (Some milk_item) (on_message msg [Some eggs_item]).1)
    = count_id 1 [Some eggs_item] + 2.
Proof.
  apply (created_item_shown_twice milk_item [Some eggs_item]
           (push "item_added" (Some milk_item) None));
    reflexivity.
Defined.

(** X17 on a list of two items. *)
Lemma push_overrides_local_toggle_witness :
  let msg := push "item_updated" (Some milk_bought) None in
  on_message msg (toggleBought milk_item [Some milk_item; Some eggs_item]).1
  = on_message msg [Some milk_item; Some eggs_item].
Proof.
  apply (push_overrides_local_toggle milk_item
           [Some milk_item; Some eggs_item]
           (toggleBought milk_item [Some milk_item; Some eggs_item]).1
           (push "item_updated" (Some milk_bought) None) milk_bought);
    reflexivity.
Defined.

(** X18 on a list of one item: the push that follows a creation the item
    service answered with an error, then an update. *)
Lemma undefined_item_breaks_pushes_witness :
  let items0 := (on_message (push "item_added" None None) [Some milk_item]).1 in
  items0 = [Some milk_item] ++ [None]
  ∧ on_message (push "item_updated" (Some milk_bought) None) items0
    = (items0, Throw "TypeError").
Proof.
  apply (undefined_item_breaks_pushes (push "item_added" None None)
           (push "item_updated" (Some milk_bought) None) [Some milk_item]);
    [reflexivity | reflexivity | left; reflexivity].
Defined.

(** X19 on a list of two items. *)
Lemma toggleBought_twice_witness :
  toggleBought milk_item [Some milk_bought; Some eggs_item]
  = ([Some milk_item; Some eggs_item], Normal).
Proof.
  apply (toggleBought_twice milk_item [Some milk_item; Some eggs_item]
           [Some milk_bought; Some eggs_item]).
  reflexivity.
Defined.

(** X21 on a request: [create_item] with the database and Kafka up. *)
Lemma item_event_after_write_witness :
  let msg := job "a10" "create_item" milk_text in
  let effs :=
    (ItemService.handleRequest (sample_request_parse milk_text milk_payload)
       (sample_rows [milk_row]) kafka_up sample_type_error_text msg).1 in
  (∃ pre,
     effs = pre ++ reply_and_ack msg
                     (success (Some (ItemService.OneRow milk_row))))
  ∧ ∃ q rows,
      sample_rows [milk_row] q = inl rows
      ∧ head rows = Some milk_row
      ∧ Queried q ∈ effs
      ∧ ((("item-created" : string) = "item-created"
          ∧ q = ItemService.InsertItem milk_payload)
         ∨ (("item-created" : string) = "item-updated"
            ∧ q = ItemService.UpdateItem milk_payload)).
Proof.
  intros msg effs.
  apply (item_event_after_write (sample_request_parse milk_text milk_payload)
           (sample_rows [milk_row]) kafka_up sample_type_error_text msg
           effs Normal "item-created"
           {| ItemService.event_row := Some milk_row;
              ItemService.event_payload := milk_payload |});
    [reflexivity | vm_compute; repeat constructor].
Defined.

(** X22 on a request: [update_item] with the database up and Kafka
    down. *)
Lemma update_written_but_not_found_witness :
  let msg := job "a10" "update_item" milk_text in
  let response : Envelope (@ItemService.Data JSObject) :=
    failure (Some "Connection error") in
  ItemService.handleRequest (sample_request_parse milk_text milk_payload)
    (sample_rows [milk_row]) kafka_down sample_type_error_text msg
  = (Queried (ItemService.UpdateItem milk_payload)
       :: reply_and_ack msg response, Normal)
  ∧ put_items_id (Returned response) true
    = [Respond {| code := 404; body := Text (Some "Connection error") |}].
Proof.
  apply (update_written_but_not_found
           (sample_request_parse milk_text milk_payload)
           (sample_rows [milk_row]) kafka_down sample_type_error_text
           (job "a10" "update_item" milk_text)
           {| command := Some "update_item"; payload := Some milk_payload |}
           milk_payload milk_row []
           {| err_code := None; err_message := Some "Connection error" |}
           true);
    reflexivity.
Defined.

(** X23 on a request: [delete_item] for an id that has no row. *)
Lemma absent_item_not_found_witness :
  let msg := job "a10" "delete_item" milk_text in
  let response : Envelope (@ItemService.Data JSObject) :=
    failure (Some "Item not found") in
  let not_found : list (Effect (@ItemService.Data JSObject)) :=
    [Respond {| code := 404; body := Text (Some "Item not found") |}] in
  (∃ q,
     ItemService.handleRequest (sample_request_parse milk_text milk_payload)
       (sample_rows []) kafka_up sample_type_error_text msg
     = (Queried q :: reply_and_ack msg response, Normal))
  ∧ put_items_id (Returned response) true = not_found
  ∧ delete_items_id (Some 7%Z) (Returned response) true = not_found.
Proof.
  apply (absent_item_not_found (sample_request_parse milk_text milk_payload)
           (sample_rows []) kafka_up sample_type_error_text
           (job "a10" "delete_item" milk_text)
           {| command := Some "delete_item"; payload := Some milk_payload |}
           milk_payload (Some 7%Z) true);
    [reflexivity | reflexivity | right; split; reflexivity].
Defined.

(** X25 on a request: a login with a wrong password. *)
Lemma login_failures_alike_witness :
  let msg := job "b20" "login" ann_text in
  let response : Envelope (@UserService.Data JSObject string JSObject) :=
    failure (Some "Invalid credentials") in
  UserService.handleRequest (sample_request_parse ann_text ann_payload)
    (sample_rows [ann_row]) kafka_up sample_hash sample_compare sample_sign
    sample_verify sample_type_error_text msg
  = (Queried (UserService.SelectUser ann_payload)
       :: reply_and_ack msg response, Normal)
  ∧ post_login (Returned response)
    = [Respond {| code := 401; body := Text (Some "Invalid credentials") |}].
Proof.
  apply (login_failures_alike (sample_request_parse ann_text ann_payload)
           (sample_rows [ann_row]) kafka_up sample_hash sample_compare
           sample_sign sample_verify sample_type_error_text
           (job "b20" "login" ann_text)
           {| command := Some "login"; payload := Some ann_payload |}
           ann_payload [ann_row]);
    [reflexivity | reflexivity | reflexivity | reflexivity |].
  right. exists ann_row. split; reflexivity.
Defined.

(** X26 on a request: a signup with a name that is taken. *)
Lemma signup_taken_name_witness :
  let msg := job "b20" "signup" ann_text in
  let response : Envelope (@UserService.Data JSObject string JSObject) :=
    failure (Some "Username already exists") in
  UserService.handleRequest (sample_request_parse ann_text ann_payload)
    name_taken kafka_up sample_hash sample_compare sample_sign
    sample_verify sample_type_error_text msg
  = (Queried (UserService.InsertUser ann_payload "$2b$10$h")
       :: reply_and_ack msg response, Normal)
  ∧ post_signup (Returned response)
    = [Respond {| code := 201; body := Json None |}].
Proof.
  apply (signup_taken_name (sample_request_parse ann_text ann_payload)
           name_taken kafka_up sample_hash sample_compare sample_sign
           sample_verify sample_type_error_text
           (job "b20" "signup" ann_text)
           {| command := Some "signup"; payload := Some ann_payload |}
           ann_payload "$2b$10$h"
           {| err_code := Some "23505";
              err_message := Some "duplicate key value" |});
    reflexivity.
Defined.

(** X27 on a request: a token that [jwt.verify] accepts. *)
Lemma verify_token_decides_witness :
  ∃ response : Envelope (@UserService.Data JSObject string JSObject),
    UserService.handleRequest (sample_request_parse ann_text ann_payload)
      (sample_rows [ann_row]) kafka_up sample_hash sample_compare sample_sign
      sample_verify sample_type_error_text (job "b20" "verify_token" ann_text)
    = (reply_and_ack (job "b20" "verify_token" ann_text) response, Normal)
    ∧ authenticateToken (Some "jwt") (Returned response)
      = [Next (UserService.Verified ann_row)].
Proof.
  apply (verify_token_decides (sample_request_parse ann_text ann_payload)
           (sample_rows [ann_row]) kafka_up sample_hash sample_compare
           sample_sign sample_verify sample_type_error_text
           (job "b20" "verify_token" ann_text)
           {| command := Some "verify_token"; payload := Some ann_payload |}
           ann_payload "jwt");
    reflexivity.
Defined.

(** X28 on a request: a signup with the database and Kafka up. *)
Lemma user_event_after_signup_witness :
  let msg := job "b20" "signup" ann_text in
  let effs :=
    (UserService.handleRequest (sample_request_parse ann_text ann_payload)
       (sample_rows [ann_row]) kafka_up sample_hash sample_compare
       sample_sign sample_verify sample_type_error_text msg).1 in
  ("user-created" : string) = "user-created"
  ∧ (∃ pre,
       effs = pre ++ reply_and_ack msg
                       (success (Some (UserService.Session ann_row "jwt"))))
  ∧ ∃ pl hashedPassword rows,
      sample_hash pl = inl hashedPassword
      ∧ sample_rows [ann_row] (UserService.InsertUser pl hashedPassword)
        = inl rows
      ∧ head rows = Some ann_row
      ∧ Queried (UserService.InsertUser pl hashedPassword) ∈ effs.
Proof.
  intros msg effs.
  apply (user_event_after_signup (sample_request_parse ann_text ann_payload)
           (sample_rows [ann_row]) kafka_up sample_hash sample_compare
           sample_sign sample_verify sample_type_error_text msg
           effs Normal "user-created" ann_row);
    [reflexivity | vm_compute; repeat constructor].
Defined.

(** X30 on a run: [sendToQueue] throws in a call; another call is made and
    times out; the first call's entry is still there. *)
Lemma thrown_send_entry_stays_witness :
  let st :=
    run sample_parse init
      ([] ++ CallThrows ItemBackend "get_items" "" "a1" "Channel closed"
          :: [Call ItemBackend "get_items" "" "b2"; Tick 5000; Timers]) in
  Map_get (pending ItemBackend st) "a10" = Some (ResolveOf 0)
  ∧ (∀ t, t ∈ timers st → timer_key t ≠ (ItemBackend, "a10")).
Proof.
  apply (thrown_send_entry_stays sample_parse []
           ItemBackend "get_items" "" "a1" "Channel closed"
           [Call ItemBackend "get_items" "" "b2"; Tick 5000; Timers]);
    [reflexivity|].
  repeat constructor; simpl; tauto.
Defined.

(** Why X3 and X4 speak of calls in which [sendToQueue] returned.  After
    a call in which it threw, the entry is in the map although the promise
    is rejected, and a message that carries the call's correlation id
    still finds the entry and calls its [resolve]. *)
Example thrown_send_then_reply :
  let st := run sample_parse init
              [CallThrows ItemBackend "get_items" "" "a1" "Channel closed"] in
  Map_get (pending ItemBackend st) "a10" = Some (ResolveOf 0)
  ∧ outcomes 0 st = [Reject 0 (AThrown "Channel closed")]
  ∧ outcomes 0 (run sample_parse st
                  [Deliver ItemBackend (reply "a10" created_text)])
    = [Reject 0 (AThrown "Channel closed");
       Resolve 0 (AEnvelope created_reply)].
Proof. by split_and!. Qed.
